(** * Shallow embedding of the edit/undo engine of rust-text-editor

    Sources embedded here:
    - [src/core/edit_history.rs]   ([Edit], [EditOperation], [EditHistory],
                                    [Edit::apply], [Edit::reverse])
    - [src/core/buffer.rs]         ([Buffer::from_string], [Buffer::default])
    - [src/core/selection.rs]      ([TextPosition], [Selection::get_range])
    - [src/tui/view/graphemes.rs]  (grapheme utilities)
    - [src/tui/view/keyboard.rs]   ([backspace])
    - [src/tui/mod.rs]             (the [Action::Undo] / [Action::Redo] handlers)

    Conventions.
    - A Rust [String] is its sequence of Unicode scalar values ([str]);
      [String::len] is the UTF-8 byte length [str_len]; [s.chars()] is the
      list itself.
    - A computation that can panic returns [option]: [None] is the panic.
    - [Vec<T>] is [list T]; [push] appends at the end, [pop] takes the last.
    - [usize] values of the edit engine are [nat]; the grapheme utilities,
      whose index argument is an arbitrary caller-supplied [usize], take it
      as an [N] bounded by [usize_max].
    - Arithmetic overflow panics, as in the default (debug) build: the
      additions that can overflow are checked ([usize_add], [usize_add_nat],
      [u16_add]). *)

From Stdlib Require Import String Ascii.
From Stdlib Require Import List Arith Lia NArith Bool.
Import ListNotations.
Open Scope list_scope.

(* ------------------------------------------------------------------ *)
(** ** Strings and vectors *)

Definition str := list nat.

(** Bytes taken by one scalar value in UTF-8. *)
Definition utf8_len (c : nat) : nat :=
  if c <? 128 then 1 else if c <? 2048 then 2
  else if c <? Nat.pow 2 16 then 3 else 4.

(** [String::len]: the length in bytes. *)
Fixpoint str_len (s : str) : nat :=
  match s with
  | [] => 0
  | c :: s' => utf8_len c + str_len s'
  end.

(** An ASCII literal as a [str]. *)
Definition s_ (x : string) : str := map nat_of_ascii (list_ascii_of_string x).

(** [s.split_at(b)] / [s.split_off(b)] at byte offset [b]: panics when [b]
    is past the end or not on a char boundary. *)
Fixpoint split_at_byte (s : str) (b : nat) : option (str * str) :=
  match b with
  | 0 => Some ([], s)
  | _ =>
      match s with
      | [] => None
      | c :: s' =>
          if b <? utf8_len c then None
          else match split_at_byte s' (b - utf8_len c) with
               | Some (x, y) => Some (c :: x, y)
               | None => None
               end
      end
  end.

(** [v[..k]] and [v[k..]] on a slice: panic when [k > v.len()]. *)
Definition slice_to {A} (k : nat) (v : list A) : option (list A) :=
  if k <=? length v then Some (firstn k v) else None.

Definition slice_from {A} (k : nat) (v : list A) : option (list A) :=
  if k <=? length v then Some (skipn k v) else None.

(** [Vec::insert(i, x)]: panics when [i > len]. *)
Definition vec_insert {A} (i : nat) (x : A) (v : list A) : option (list A) :=
  if i <=? length v then Some (firstn i v ++ x :: skipn i v) else None.

(** [Vec::remove(i)] where the caller has checked [i < len]. *)
Definition vec_remove {A} (i : nat) (v : list A) : list A :=
  firstn i v ++ skipn (S i) v.

(** Writing through [get_mut(i)] (only used after it returned [Some]). *)
Fixpoint set_nth {A} (i : nat) (x : A) (v : list A) : list A :=
  match v, i with
  | [], _ => []
  | _ :: v', 0 => x :: v'
  | y :: v', S i' => y :: set_nth i' x v'
  end.

(** [s.split(sep)] on one scalar value; [""] gives [[""]]. *)
Fixpoint split_on (sep : nat) (s : str) : list str :=
  match s with
  | [] => [[]]
  | c :: s' =>
      if c =? sep then [] :: split_on sep s'
      else match split_on sep s' with
           | [] => [[c]]
           | w :: ws => (c :: w) :: ws
           end
  end.

(** Integer arithmetic is taken with overflow checks, as in the default
    (debug) build: an overflowing [usize] or [u16] operation panics. *)
Definition usize_max : N := 18446744073709551615%N.

(** [a + b] on [usize], with overflow checks (debug builds): panics past
    [usize::MAX]. *)
Definition usize_add (a b : N) : option N :=
  if (a + b <=? usize_max)%N then Some (a + b)%N else None.

(** The same addition on [usize] values held as [nat]. *)
Definition usize_add_nat (a b : nat) : option nat :=
  if (N.of_nat a + N.of_nat b <=? usize_max)%N then Some (a + b) else None.

(** [x as u16] for a [usize] [x]: the low 16 bits. *)
Definition as_u16 (n : nat) : N := (N.of_nat n mod 65536)%N.

(** [a + b] on [u16], with overflow checks: panics past [u16::MAX]. *)
Definition u16_add (a b : N) : option N :=
  if (a + b <=? 65535)%N then Some (a + b)%N else None.

Definition newline : nat := 10.
Definition carriage_return : nat := 13.

(** The vector surgery used by the text variants:
    [let chars: Vec<char> = line.chars().collect();
     let mut new_chars = chars[..col].to_vec();
     new_chars.extend(ins);
     new_chars.extend(&chars[resume..]);] *)
Definition chars_splice (line : str) (col : nat) (ins : str) (resume : nat)
  : option str :=
  match slice_to col line with
  | None => None
  | Some head =>
      match slice_from resume line with
      | None => None
      | Some tail => Some (head ++ ins ++ tail)
      end
  end.

(** [if let Some(line_content) = buffer.get_mut(l) { *line_content = f(..) }] *)
Definition update_line (l : nat) (f : str -> option str) (buffer : list str)
  : option (list str) :=
  match nth_error buffer l with
  | None => Some buffer
  | Some line_content =>
      match f line_content with
      | None => None
      | Some line' => Some (set_nth l line' buffer)
      end
  end.

(* ------------------------------------------------------------------ *)
(** ** [Edit] and its application (edit_history.rs) *)

Inductive Edit : Type :=
| InsertText (line column : nat) (text : str)
| DeleteText (line column : nat) (text : str)
| InsertLine (line : nat) (remaining_text : str)
| DeleteLine (line : nat) (content : str) (prev_line_end_len : nat)
| JoinLines (line : nat) (first_line_end : nat)
| ReplaceRange (start_line start_column end_line end_column : nat)
               (old_text new_text : str).

(** [for _ in start..=end { if start < buffer.len() { buffer.remove(start); } }] *)
Fixpoint remove_times (k start : nat) (buffer : list str) : list str :=
  match k with
  | 0 => buffer
  | S k' =>
      remove_times k' start
        (if start <? length buffer then vec_remove start buffer else buffer)
  end.

Definition range_incl_len (a b : nat) : nat := if a <=? b then b - a + 1 else 0.

(** [for (i, line) in new_lines.iter().enumerate() { buffer.insert(start + i, line) }] *)
Fixpoint insert_all (i : nat) (pieces : list str) (buffer : list str)
  : option (list str) :=
  match pieces with
  | [] => Some buffer
  | p :: ps =>
      match vec_insert i p buffer with
      | None => None
      | Some buffer' => insert_all (S i) ps buffer'
      end
  end.

(** [Edit::apply] (used for redo). [line + 1 < buffer.len()] in
    [JoinLines] adds to an arbitrary [line] and is checked. The other
    additions cannot overflow: [column + text.len()] comes after
    [chars[..column]] has checked [column <= chars.len()], [line + 1] in
    [InsertLine] after [line < buffer.len()], and [start_line + i] after the
    first insertion has checked [start_line <= buffer.len()] (a [Vec] or a
    [String] never holds more than [isize::MAX] items). *)
Definition apply (e : Edit) (buffer : list str) : option (list str) :=
  match e with
  | InsertText line column text =>
      update_line line (fun lc => chars_splice lc column text column) buffer
  | DeleteText line column text =>
      update_line line
        (fun lc => chars_splice lc column [] (column + str_len text)) buffer
  | InsertLine line remaining_text =>
      if line <? length buffer then vec_insert (line + 1) remaining_text buffer
      else Some (buffer ++ [remaining_text])
  | DeleteLine line _ _ =>
      if line <? length buffer then Some (vec_remove line buffer) else Some buffer
  | JoinLines line _ =>
      match usize_add_nat line 1 with
      | None => None
      | Some next =>
          if next <? length buffer then
            let next_line := nth next buffer [] in
            let buffer' := vec_remove next buffer in
            match nth_error buffer' line with
            | Some current => Some (set_nth line (current ++ next_line) buffer')
            | None => Some buffer'
            end
          else Some buffer
      end
  | ReplaceRange start_line start_column end_line end_column _ new_text =>
      if start_line =? end_line then
        update_line start_line
          (fun lc => chars_splice lc start_column new_text end_column) buffer
      else
        let buffer' :=
          remove_times (range_incl_len start_line end_line) start_line buffer in
        insert_all start_line (split_on newline new_text) buffer'
  end.

(** [Edit::reverse] (used for undo). As in [apply], the addition
    [line + 1 < buffer.len()] of [InsertLine] is checked; the others follow
    a bounds check ([chars[..column]], [get_mut(line)]) and cannot
    overflow. *)
Definition reverse (e : Edit) (buffer : list str) : option (list str) :=
  match e with
  | InsertText line column text =>
      update_line line
        (fun lc => chars_splice lc column [] (column + str_len text)) buffer
  | DeleteText line column text =>
      update_line line (fun lc => chars_splice lc column text column) buffer
  | InsertLine line remaining_text =>
      match usize_add_nat line 1 with
      | None => None
      | Some next =>
          if next <? length buffer then
            let buffer' := vec_remove next buffer in
            match nth_error buffer' line with
            | Some current => Some (set_nth line (current ++ remaining_text) buffer')
            | None => Some buffer'
            end
          else Some buffer
      end
  | DeleteLine line content prev_line_end_len =>
      if (0 <? line) && (line <=? length buffer) then
        match nth_error buffer (line - 1) with
        | Some prev =>
            match split_at_byte prev prev_line_end_len with
            | None => None
            | Some (prev', split_content) =>
                vec_insert line (content ++ split_content)
                  (set_nth (line - 1) prev' buffer)
            end
        | None => Some buffer
        end
      else Some buffer
  | JoinLines line first_line_end =>
      match nth_error buffer line with
      | Some current =>
          match split_at_byte current first_line_end with
          | None => None
          | Some (current', split_content) =>
              vec_insert (line + 1) split_content (set_nth line current' buffer)
          end
      | None => Some buffer
      end
  | ReplaceRange start_line start_column end_line end_column old_text _ =>
      if start_line =? end_line then
        update_line start_line
          (fun lc => chars_splice lc start_column old_text end_column) buffer
      else Some buffer
  end.



(* ------------------------------------------------------------------ *)
(** ** [EditOperation] and [EditHistory] (edit_history.rs) *)

(** [tui::caret::Position]: a screen position. *)
Record Position := mkPosition { x : nat; y : nat }.

Record EditOperation := mkEditOperation {
  edit : Edit;
  cursor_before : Position;
  cursor_after : Position;
  scroll_before : nat;
  scroll_after : nat
}.

(** [std::time::Instant] as nanoseconds on a monotonic clock. *)
Definition Instant := N.

Record EditHistory := mkEditHistory {
  undo_stack : list EditOperation;
  redo_stack : list EditOperation;
  max_history : nat;
  last_edit_time : Instant;
  grouping_threshold_ms : N
}.

(** [EditHistory::new(max_history)], created at instant [now]. *)
Definition new (max_history : nat) (now : Instant) : EditHistory :=
  mkEditHistory [] [] max_history now 500.

(** [now.duration_since(earlier).as_millis()]: [duration_since] saturates at
    zero and [as_millis] truncates to whole milliseconds. *)
Definition elapsed_millis (earlier now : Instant) : N := (now - earlier) / 1000000.

(** [Vec::last] and [Vec::pop]. *)
Fixpoint vec_last {A} (v : list A) : option A :=
  match v with
  | [] => None
  | [a] => Some a
  | _ :: v' => vec_last v'
  end.

Definition vec_pop {A} (v : list A) : option (A * list A) :=
  match vec_last v with
  | Some a => Some (a, removelast v)
  | None => None
  end.

(** [EditHistory::can_group_with_last]. *)
Definition can_group_with_last (h : EditHistory) (operation : EditOperation)
  (now : Instant) : bool :=
  match undo_stack h with
  | [] => false
  | _ =>
      if (grouping_threshold_ms h <? elapsed_millis (last_edit_time h) now)%N then false
      else
        match vec_last (undo_stack h) with
        | Some last_op =>
            match edit last_op, edit operation with
            | InsertText l1 _ _, InsertText l2 _ _ => l1 =? l2
            | DeleteText l1 _ _, DeleteText l2 _ _ => l1 =? l2
            | _, _ => false
            end
        | None => false
        end
  end.

(** [EditHistory::try_merge_operations]: [Some (Some merged)] where the
    source mutates [last] and returns [true], [Some None] where it returns
    [false], [None] where it panics: the guard [l1 == l2 && *c1 + t1.len()
    == *c2] adds on [usize] once the lines are equal. *)
Definition try_merge_operations (last new : EditOperation)
  : option (option EditOperation) :=
  match edit last, edit new with
  | InsertText l1 c1 t1, InsertText l2 c2 t2 =>
      if l1 =? l2 then
        match usize_add_nat c1 (str_len t1) with
        | None => None
        | Some end1 =>
            if end1 =? c2 then
              Some (Some (mkEditOperation (InsertText l1 c1 (t1 ++ t2))
                            (cursor_before last) (cursor_after new)
                            (scroll_before last) (scroll_after new)))
            else Some None
        end
      else Some None
  | DeleteText l1 c1 t1, DeleteText l2 c2 t2 =>
      (* [c1.saturating_sub(t2.len())]: [nat] subtraction saturates at 0 *)
      if (l1 =? l2) && (c2 =? c1 - str_len t2) then
        Some (Some (mkEditOperation (DeleteText l1 c2 (t2 ++ t1))
                      (cursor_before last) (cursor_after new)
                      (scroll_before last) (scroll_after new)))
      else Some None
  | _, _ => Some None
  end.

Definition with_stacks (h : EditHistory) (u r : list EditOperation)
  (t : Instant) : EditHistory :=
  mkEditHistory u r (max_history h) t (grouping_threshold_ms h).

(** The tail of [push]: add as a new operation, then
    [if undo_stack.len() > max_history { undo_stack.remove(0); }]. *)
Definition push_new (h : EditHistory) (operation : EditOperation)
  (now : Instant) : EditHistory :=
  let u := undo_stack h ++ [operation] in
  let u' := if max_history h <? length u then tl u else u in
  with_stacks h u' (redo_stack h) now.

(** [EditHistory::push]: [None] when it panics. *)
Definition push (h : EditHistory) (operation : EditOperation) (now : Instant)
  : option EditHistory :=
  let h1 := with_stacks h (undo_stack h) [] (last_edit_time h) in
  if can_group_with_last h1 operation now then
    match vec_pop (undo_stack h1) with
    | Some (last_op, rest) =>
        match try_merge_operations last_op operation with
        | None => None
        | Some (Some merged) => Some (with_stacks h1 (rest ++ [merged]) [] now)
        | Some None => Some (push_new h1 operation now)
        end
    | None => Some (push_new h1 operation now)
    end
  else Some (push_new h1 operation now).

(** [EditHistory::undo] and [EditHistory::redo]. *)
Definition undo (h : EditHistory) : EditHistory * option EditOperation :=
  match vec_pop (undo_stack h) with
  | Some (op, rest) =>
      (with_stacks h rest (redo_stack h ++ [op]) (last_edit_time h), Some op)
  | None => (h, None)
  end.

Definition redo (h : EditHistory) : EditHistory * option EditOperation :=
  match vec_pop (redo_stack h) with
  | Some (op, rest) =>
      (with_stacks h (undo_stack h ++ [op]) rest (last_edit_time h), Some op)
  | None => (h, None)
  end.

(** Pushing a sequence of operations, each at its own instant. *)
Fixpoint push_all (h : EditHistory) (ops : list (EditOperation * Instant))
  : option EditHistory :=
  match ops with
  | [] => Some h
  | (op, t) :: ops' =>
      match push h op t with
      | Some h' => push_all h' ops'
      | None => None
      end
  end.

(** The [Action::Undo] and [Action::Redo] handlers of [tui/mod.rs], on the
    history and the buffer lines (cursor and scroll restoring omitted). *)
Definition action_undo (h : EditHistory) (lines : list str)
  : option (EditHistory * list str) :=
  match undo h with
  | (h', Some op) =>
      match reverse (edit op) lines with
      | Some lines' => Some (h', lines')
      | None => None
      end
  | (h', None) => Some (h', lines)
  end.

Definition action_redo (h : EditHistory) (lines : list str)
  : option (EditHistory * list str) :=
  match redo h with
  | (h', Some op) =>
      match apply (edit op) lines with
      | Some lines' => Some (h', lines')
      | None => None
      end
  | (h', None) => Some (h', lines)
  end.

(** The histories the program can build: from [EditHistory::new] through
    [push], [undo] and [redo]. *)
Inductive reachable : EditHistory -> Prop :=
| reach_new m t : reachable (new m t)
| reach_push h op t h' : reachable h -> push h op t = Some h' -> reachable h'
| reach_undo h : reachable h -> reachable (fst (undo h))
| reach_redo h : reachable h -> reachable (fst (redo h)).

(* ------------------------------------------------------------------ *)
(** ** Selection (selection.rs) *)

Record TextPosition := mkTextPosition { line : nat; column : nat }.

Record Selection := mkSelection { anchor : TextPosition; cursor : TextPosition }.

(** [Selection::get_range]. *)
Definition get_range (s : Selection) : TextPosition * TextPosition :=
  if (line (anchor s) <? line (cursor s))
     || ((line (anchor s) =? line (cursor s))
         && (column (anchor s) <? column (cursor s)))
  then (anchor s, cursor s)
  else (cursor s, anchor s).

(* ------------------------------------------------------------------ *)
(** ** Buffer (buffer.rs) *)

Record Buffer := mkBuffer { lines : list str }.

(** [strip_suffix('\r')]. *)
Definition strip_cr (w : str) : str :=
  match vec_last w with
  | Some c => if c =? carriage_return then removelast w else w
  | None => w
  end.

(** [str::lines], reading the pieces of [split_inclusive('\n')]: a piece
    ending in a newline loses it, and then a carriage return before it; a
    last piece without a newline is kept as it is. [cur_rev] is the current
    piece, reversed. *)
Fixpoint lines_go (cur_rev : str) (s : str) : list str :=
  match s with
  | [] => match cur_rev with [] => [] | _ => [rev cur_rev] end
  | c :: s' =>
      if c =? newline then strip_cr (rev cur_rev) :: lines_go [] s'
      else lines_go (c :: cur_rev) s'
  end.

Definition str_lines (s : str) : list str := lines_go [] s.

(** [for _ in 0..n { lines.push(String::new()) }] *)
Definition push_empty_lines (n : nat) (ls : list str) : list str :=
  ls ++ repeat [] n.

(** [Buffer::from_string]. *)
Definition from_string (content : str) : Buffer :=
  let ls := str_lines content in
  let ls' := match ls with [] => [[]] | _ => ls end in
  mkBuffer (push_empty_lines 500 ls').

(** [Buffer::default]. *)
Definition default : Buffer := mkBuffer (push_empty_lines 500 []).


(* ------------------------------------------------------------------ *)
(** ** Grapheme utilities (graphemes.rs) and [backspace] (keyboard.rs)

    The extended grapheme clusters of [unicode_segmentation] are taken as a
    parameter [graphemes]: the clusters of [s], in order. *)

(** [Iterator::nth], [skip] and [take] with a [usize] count. *)
Fixpoint nth_N {A} (l : list A) (i : N) : option A :=
  match l with
  | [] => None
  | a :: l' => if (i =? 0)%N then Some a else nth_N l' (N.pred i)
  end.

Fixpoint skip_N {A} (i : N) (l : list A) : list A :=
  match l with
  | [] => []
  | a :: l' => if (i =? 0)%N then l else skip_N (N.pred i) l'
  end.

Fixpoint take_N {A} (i : N) (l : list A) : list A :=
  match l with
  | [] => []
  | a :: l' => if (i =? 0)%N then [] else a :: take_N (N.pred i) l'
  end.

(** [grapheme_indices]: each cluster with its byte offset. *)
Fixpoint grapheme_offsets (gs : list str) (off : nat) : list (nat * str) :=
  match gs with
  | [] => []
  | g :: gs' => (off, g) :: grapheme_offsets gs' (off + str_len g)
  end.

(** [s.drain(a..b)]: the string left and the drained part; panics when
    [a > b], [b > len] or either is not a char boundary. *)
Definition drain (s : str) (a b : nat) : option (str * str) :=
  match split_at_byte s b with
  | None => None
  | Some (xs, zs) =>
      match split_at_byte xs a with
      | None => None
      | Some (ps, ms) => Some (ps ++ zs, ms)
      end
  end.

Section Graphemes.

Variable graphemes : str -> list str.

Definition grapheme_to_byte_idx (s : str) (grapheme_idx : N) : nat :=
  match nth_N (grapheme_offsets (graphemes s) 0) grapheme_idx with
  | Some (idx, _) => idx
  | None => str_len s
  end.

Definition grapheme_at (s : str) (grapheme_idx : N) : option str :=
  nth_N (graphemes s) grapheme_idx.

Definition grapheme_len (s : str) : nat := length (graphemes s).

Definition grapheme_slice (s : str) (start end_ : N) : str :=
  concat (take_N (end_ - start) (skip_N start (graphemes s))).

(** [insert_at_grapheme]: the new contents of [s] ([insert_str] panics off
    a char boundary). *)
Definition insert_at_grapheme (s : str) (grapheme_idx : N) (text : str)
  : option str :=
  match split_at_byte s (grapheme_to_byte_idx s grapheme_idx) with
  | Some (a, b) => Some (a ++ text ++ b)
  | None => None
  end.

(** [remove_grapheme_at]: the new contents of [s] and the returned value. *)
Definition remove_grapheme_at (s : str) (grapheme_idx : N)
  : option (str * option str) :=
  let byte_start := grapheme_to_byte_idx s grapheme_idx in
  match usize_add grapheme_idx 1 with
  | None => None
  | Some next_idx =>
      let byte_end := grapheme_to_byte_idx s next_idx in
      if byte_start <? str_len s then
        match drain s byte_start byte_end with
        | Some (s', removed) => Some (s', Some removed)
        | None => None
        end
      else Some (s, None)
  end.

Definition split_at_grapheme (s : str) (grapheme_idx : N) : option (str * str) :=
  split_at_byte s (grapheme_to_byte_idx s grapheme_idx).

(** [backspace] on the buffer lines, for the cursor at buffer line
    [buffer_line_idx] and grapheme column [char_pos] (the source derives
    both from the caret: [(pos.y - HEADER) + scroll_offset] and
    [pos.x - MARGIN], saturating). With an active selection the source
    returns [delete_selection(view, caret)], passed here as [delete_selection].
    The result is the new lines and the [edit] of the returned operation
    ([None] for [Ok(None)]); caret moves and rendering are left out. *)
Definition backspace (selection_active : bool)
  (delete_selection : list str -> option (list str * option Edit))
  (lines : list str) (buffer_line_idx char_pos : nat)
  : option (list str * option Edit) :=
  if selection_active then delete_selection lines
  else if 0 <? char_pos then
    match nth_error lines buffer_line_idx with
    | Some line =>
        if char_pos <=? grapheme_len line then
          match remove_grapheme_at line (N.of_nat (char_pos - 1)) with
          | None => None
          | Some (line', removed) =>
              let deleted := match removed with Some r => r | None => [] end in
              Some (set_nth buffer_line_idx line' lines,
                    Some (DeleteText buffer_line_idx (char_pos - 1) deleted))
          end
        else Some (lines, None)
    | None => Some (lines, None)
    end
  else if 0 <? buffer_line_idx then
    match nth_error lines (buffer_line_idx - 1), nth_error lines buffer_line_idx with
    | Some prev, Some current_line_content =>
        let prev_line_len := grapheme_len prev in
        let lines1 := set_nth (buffer_line_idx - 1)
                        (prev ++ current_line_content) lines in
        (* the caret moves to [x: Position::MARGIN + prev_line_len as u16]:
           since [buffer_line_idx = (pos.y - HEADER) + scroll_offset > 0],
           either [pos.y > HEADER] or [scroll_offset > 0], and both branches
           make that move *)
        match u16_add 4 (as_u16 prev_line_len) with
        | None => None
        | Some _ =>
            Some (vec_remove buffer_line_idx lines1,
                  Some (DeleteLine buffer_line_idx current_line_content prev_line_len))
        end
    | _, _ => None
    end
  else Some (lines, None).

End Graphemes.

(** One cluster per scalar value: the segmentation of ASCII text without
    carriage returns, used for concrete runs. *)
Definition char_graphemes (s : str) : list str := map (fun c => [c]) s.

(* ------------------------------------------------------------------ *)
(** ** More of selection.rs *)

(** [#[derive(PartialEq)]] on [TextPosition]. *)
Definition text_position_eqb (p q : TextPosition) : bool :=
  (line p =? line q) && (column p =? column q).

(** [Selection::new]. *)
Definition selection_new (pos : TextPosition) : Selection := mkSelection pos pos.

(** [Selection::is_active]. *)
Definition is_active (s : Selection) : bool :=
  negb (text_position_eqb (anchor s) (cursor s)).

(** [Selection::update_cursor]. *)
Definition update_cursor (s : Selection) (new_pos : TextPosition) : Selection :=
  mkSelection (anchor s) new_pos.

(* ------------------------------------------------------------------ *)
(** ** More of keyboard.rs, and clipboard.rs

    The buffer side of the editing actions. [buffer_line_idx] and
    [char_pos] are the caret's buffer line and grapheme column; caret moves,
    scrolling and rendering are left out, and so are their I/O errors,
    which the source raises only after the buffer has been changed. *)

(** [while lines.len() <= idx { lines.push(String::new()) }] *)
Definition pad_lines (idx : nat) (lines : list str) : list str :=
  lines ++ repeat [] (S idx - length lines).

(** [lines.insert(i, x)] when [i < lines.len()], else [lines.push(x)]. *)
Definition insert_or_push {A} (i : nat) (x : A) (v : list A) : list A :=
  if i <? length v then firstn i v ++ x :: skipn i v else v ++ [x].

(** [unwrap_or_default()] on an [Option<String>]. *)
Definition unwrap_or_default (o : option str) : str :=
  match o with Some r => r | None => [] end.

Section Editing.

Variable graphemes : str -> list str.

(** [insert_newline] with no active selection; [at_last_row] is
    [position.y >= size.height - 1]. *)
Definition insert_newline (at_last_row : bool) (lines : list str)
  (buffer_line_idx char_pos : nat) : option (list str * option Edit) :=
  if at_last_row then Some (lines, None)
  else
    let lines1 := pad_lines buffer_line_idx lines in
    let current_line := nth buffer_line_idx lines1 [] in
    let grapheme_pos := Nat.min char_pos (grapheme_len graphemes current_line) in
    match split_at_grapheme graphemes current_line (N.of_nat grapheme_pos) with
    | None => None
    | Some (before, remaining) =>
        let lines2 := set_nth buffer_line_idx before lines1 in
        match vec_insert (buffer_line_idx + 1) remaining lines2 with
        | None => None
        | Some lines3 => Some (lines3, Some (InsertLine buffer_line_idx remaining))
        end
    end.

(** [type_character] with no active selection, when the caret is not at
    the last column ([position.x < size.width - 1]); at the last column the
    source calls [insert_newline] and re-enters at the moved caret. *)
Definition type_character_in_line (at_last_row : bool) (character : nat)
  (lines : list str) (buffer_line_idx char_pos : nat)
  : option (list str * option Edit) :=
  if at_last_row then Some (lines, None)
  else
    let lines1 := pad_lines buffer_line_idx lines in
    let line := nth buffer_line_idx lines1 [] in
    let grapheme_pos := Nat.min char_pos (grapheme_len graphemes line) in
    match insert_at_grapheme graphemes line (N.of_nat grapheme_pos) [character] with
    | None => None
    | Some line' =>
        Some (set_nth buffer_line_idx line' lines1,
              Some (InsertText buffer_line_idx grapheme_pos [character]))
    end.

(** [delete_char]; with an active selection it returns
    [delete_selection(view, caret)], passed here as [delete_selection]. *)
Definition delete_char (selection_active : bool)
  (delete_selection : list str -> option (list str * option Edit))
  (lines : list str) (buffer_line_idx char_pos : nat)
  : option (list str * option Edit) :=
  if selection_active then delete_selection lines
  else if length lines <=? buffer_line_idx then Some (lines, None)
  else
    let line := nth buffer_line_idx lines [] in
    let grapheme_count := grapheme_len graphemes line in
    if char_pos <? grapheme_count then
      match remove_grapheme_at graphemes line (N.of_nat char_pos) with
      | None => None
      | Some (line', deleted) =>
          Some (set_nth buffer_line_idx line' lines,
                Some (DeleteText buffer_line_idx char_pos (unwrap_or_default deleted)))
      end
    else if buffer_line_idx + 1 <? length lines then
      let next_line := nth (buffer_line_idx + 1) lines [] in
      let lines1 := vec_remove (buffer_line_idx + 1) lines in
      let first_line_end := grapheme_len graphemes (nth buffer_line_idx lines1 []) in
      Some (set_nth buffer_line_idx (nth buffer_line_idx lines1 [] ++ next_line) lines1,
            Some (JoinLines buffer_line_idx first_line_end))
    else Some (lines, None).

(** [extract_text] (clipboard.rs). *)
Definition extract_line (lines : list str) (start end_ : TextPosition) (line_idx : nat)
  : str :=
  match nth_error lines line_idx with
  | None => []
  | Some l =>
      let grapheme_count := grapheme_len graphemes l in
      if line_idx =? line start then
        grapheme_slice graphemes l (N.of_nat (Nat.min (column start) grapheme_count))
          (N.of_nat grapheme_count) ++ [newline]
      else if line_idx =? line end_ then
        grapheme_slice graphemes l 0 (N.of_nat (Nat.min (column end_) grapheme_count))
      else l ++ [newline]
  end.

Definition extract_text (lines : list str) (start end_ : TextPosition) : str :=
  if line start =? line end_ then
    match nth_error lines (line start) with
    | Some l =>
        let grapheme_count := grapheme_len graphemes l in
        grapheme_slice graphemes l
          (N.of_nat (Nat.min (column start) grapheme_count))
          (N.of_nat (Nat.min (column end_) grapheme_count))
    | None => []
    end
  else
    concat (map (extract_line lines start end_)
                (seq (line start) (range_incl_len (line start) (line end_)))).

(** [delete_range] (clipboard.rs). *)
Definition delete_range (lines : list str) (start end_ : TextPosition)
  : option (list str) :=
  if line start =? line end_ then
    match nth_error lines (line start) with
    | None => Some lines
    | Some l =>
        let grapheme_count := grapheme_len graphemes l in
        let start_col := Nat.min (column start) grapheme_count in
        let end_col := Nat.min (column end_) grapheme_count in
        let byte_start := grapheme_to_byte_idx graphemes l (N.of_nat start_col) in
        let byte_end := grapheme_to_byte_idx graphemes l (N.of_nat end_col) in
        match drain l byte_start byte_end with
        | None => None
        | Some (l', _) => Some (set_nth (line start) l' lines)
        end
    end
  else
    let before_text :=
      match nth_error lines (line start) with
      | Some l =>
          grapheme_slice graphemes l 0
            (N.of_nat (Nat.min (column start) (grapheme_len graphemes l)))
      | None => []
      end in
    let after_text :=
      match nth_error lines (line end_) with
      | Some l =>
          let grapheme_count := grapheme_len graphemes l in
          grapheme_slice graphemes l (N.of_nat (Nat.min (column end_) grapheme_count))
            (N.of_nat grapheme_count)
      | None => []
      end in
    let lines1 :=
      remove_times (range_incl_len (line start) (line end_)) (line start) lines in
    vec_insert (line start) (before_text ++ after_text) lines1.

(** [delete_selection] (clipboard.rs) on [view.selection] and the lines. *)
Definition delete_selection (selection : option Selection) (lines : list str)
  : option (list str * option Edit) :=
  match selection with
  | None => Some (lines, None)
  | Some s =>
      if negb (is_active s) then Some (lines, None)
      else
        let (start, end_) := get_range s in
        let deleted_text := extract_text lines start end_ in
        match delete_range lines start end_ with
        | None => None
        | Some lines' =>
            Some (lines', Some (ReplaceRange (line start) (column start)
                                 (line end_) (column end_) deleted_text []))
        end
  end.

(** The loop of the multi-line paste: [for i in 1..pieces.len()], the last
    piece followed by [after]. *)
Fixpoint paste_rest (insert_idx : nat) (pieces : list str) (after : str)
  (lines : list str) : list str :=
  match pieces with
  | [] => lines
  | [p] => insert_or_push insert_idx (p ++ after) lines
  | p :: pieces' => paste_rest (S insert_idx) pieces' after (insert_or_push insert_idx p lines)
  end.

(** [insert_text_at_cursor] (clipboard.rs), the paste of [text] with the
    caret at screen column [pos_x] ([pos.x], a [u16]); the grapheme column
    is [pos.x - MARGIN], saturating. Once the buffer is changed the caret
    moves: after a multi-line paste to [text_to_screen_pos] of the end of
    the pasted text, whose [x] is [(column as u16) + MARGIN] (its [y],
    [HEADER + (line - scroll_offset) as u16], stays below the screen height
    after the scroll update); after a single-line paste to
    [x: (pos.x + text_grapheme_len as u16).min(..)]. *)
Definition insert_text_at_cursor (lines : list str) (buffer_line_idx pos_x : nat)
  (text : str) : option (list str * option Edit) :=
  let char_pos := pos_x - 4 in
  let lines1 := pad_lines buffer_line_idx lines in
  if existsb (Nat.eqb newline) text then
    match split_on newline text with
    | [] => Some (lines1, None)
    | first :: rest =>
        let current_line := nth buffer_line_idx lines1 [] in
        let grapheme_pos := Nat.min char_pos (grapheme_len graphemes current_line) in
        match split_at_grapheme graphemes current_line (N.of_nat grapheme_pos) with
        | None => None
        | Some (before, after) =>
            let lines2 := set_nth buffer_line_idx (before ++ first) lines1 in
            let lines3 := paste_rest (S buffer_line_idx) rest after lines2 in
            let final_buffer_col := grapheme_len graphemes (last (first :: rest) []) in
            match u16_add (as_u16 final_buffer_col) 4 with
            | None => None
            | Some _ =>
                Some (lines3, Some (ReplaceRange buffer_line_idx grapheme_pos
                                      buffer_line_idx grapheme_pos [] text))
            end
        end
    end
  else
    let line := nth buffer_line_idx lines1 [] in
    let grapheme_pos := Nat.min char_pos (grapheme_len graphemes line) in
    match insert_at_grapheme graphemes line (N.of_nat grapheme_pos) text with
    | None => None
    | Some line' =>
        match u16_add (N.of_nat pos_x) (as_u16 (grapheme_len graphemes text)) with
        | None => None
        | Some _ =>
            Some (set_nth buffer_line_idx line' lines1,
                  Some (InsertText buffer_line_idx grapheme_pos text))
        end
    end.

End Editing.

(* ------------------------------------------------------------------ *)
(** ** Tabs (tabs.rs) *)

Definition str_eqb (a b : str) : bool :=
  if list_eq_dec Nat.eq_dec a b then true else false.

Record Tab := mkTab {
  buffer : Buffer;
  filename : option str;
  filetype : option str;
  scroll_offset : nat;
  cursor_pos : Position;
  has_unsaved_changes : bool;
  edit_history : EditHistory
}.

(** [Tab::new], its [EditHistory::new(500)] created at instant [now]; the
    cursor is [Position::default()], [(MARGIN, HEADER) = (4, 1)]. *)
Definition tab_new (buffer : Buffer) (filename filetype : option str) (now : Instant)
  : Tab :=
  mkTab buffer filename filetype 0 (mkPosition 4 1) false (new 500 now).

(** [TabInfo] and [TabSession], the saved session. *)
Record TabInfo := mkTabInfo {
  info_filename : option str;
  info_filetype : option str;
  info_scroll_offset : nat;
  info_cursor_line : nat;
  info_cursor_col : nat
}.

Record TabSession := mkTabSession {
  session_tabs : list TabInfo;
  session_active_tab_index : nat
}.

(** [TabManager] ([session_file] left out). *)
Record TabManager := mkTabManager {
  tabs : list Tab;
  active_tab_index : nat;
  max_tabs : nat
}.

Section TabOps.

(** [Tab::from_file]: reading and parsing the file, [None] on an I/O error. *)
Variable from_file : str -> option Tab.
Variable now : Instant.

Definition default_tab : Tab := tab_new default None None now.

(** The tab [from_session] builds for one saved entry. *)
Definition tab_of_info (tab_info : TabInfo) : Tab :=
  match info_filename tab_info with
  | Some fname =>
      match from_file fname with
      | Some t =>
          mkTab (buffer t) (filename t) (info_filetype tab_info)
            (info_scroll_offset tab_info)
            (mkPosition (info_cursor_col tab_info) (info_cursor_line tab_info))
            (has_unsaved_changes t) (edit_history t)
      | None => default_tab
      end
  | None => default_tab
  end.

(** [TabManager::from_session]. *)
Definition from_session (session : TabSession) : TabManager :=
  let ts := map tab_of_info (session_tabs session) in
  let ts' := match ts with [] => [default_tab] | _ => ts end in
  mkTabManager ts' (Nat.min (session_active_tab_index session) (length ts' - 1)) 10.

(** [TabManager::new], [session] being what [load_session] read, if anything. *)
Definition tab_manager_new (session : option TabSession) (initial_buffer : Buffer)
  (fname ftype : option str) : TabManager :=
  match session with
  | Some s => from_session s
  | None => mkTabManager [tab_new initial_buffer fname ftype now] 0 10
  end.

(** [TabManager::new_tab]: the manager and the returned index. *)
Definition new_tab (m : TabManager) : TabManager * nat :=
  let ts := if max_tabs m <=? length (tabs m) then removelast (tabs m) else tabs m in
  (mkTabManager (default_tab :: ts) 0 (max_tabs m), 0).

(** The first index of a tab whose [filename] is [Some path]. *)
Fixpoint find_open (path : str) (ts : list Tab) (i : nat) : option nat :=
  match ts with
  | [] => None
  | t :: ts' =>
      match filename t with
      | Some f => if str_eqb f path then Some i else find_open path ts' (S i)
      | None => find_open path ts' (S i)
      end
  end.

(** [TabManager::open_file_in_new_tab]: the manager and [Some index] for
    [Ok(index)], [None] for the error of [Tab::from_file]. *)
Definition open_file_in_new_tab (m : TabManager) (path : str)
  : TabManager * option nat :=
  match find_open path (tabs m) 0 with
  | Some i => (mkTabManager (tabs m) i (max_tabs m), Some i)
  | None =>
      let ts := if max_tabs m <=? length (tabs m) then removelast (tabs m) else tabs m in
      match from_file path with
      | None => (mkTabManager ts (active_tab_index m) (max_tabs m), None)
      | Some t => (mkTabManager (t :: ts) 0 (max_tabs m), Some 0)
      end
  end.

End TabOps.

(** [TabManager::switch_to_tab]. *)
Definition switch_to_tab (m : TabManager) (tab_number : nat) : TabManager :=
  if (tab_number <? 1) || (max_tabs m <? tab_number) then m
  else if length (tabs m) <=? tab_number - 1 then m
  else mkTabManager (tabs m) (tab_number - 1) (max_tabs m).

(** [TabManager::current_tab]: [None] where indexing panics. *)
Definition current_tab (m : TabManager) : option Tab :=
  nth_error (tabs m) (active_tab_index m).

(** The [TabSession] that [TabManager::save_session] writes to the session
    file. *)
Definition save_session (m : TabManager) : TabSession :=
  mkTabSession
    (map (fun tab => mkTabInfo (filename tab) (filetype tab) (scroll_offset tab)
                       (y (cursor_pos tab)) (x (cursor_pos tab))) (tabs m))
    (active_tab_index m).

(** The managers the program builds from [TabManager::new] through
    [new_tab], [switch_to_tab] and [open_file_in_new_tab]. *)
Inductive tabs_reachable (from_file : str -> option Tab) (now : Instant)
  : TabManager -> Prop :=
| tr_new session b f t :
    tabs_reachable from_file now (tab_manager_new from_file now session b f t)
| tr_new_tab m :
    tabs_reachable from_file now m ->
    tabs_reachable from_file now (fst (new_tab now m))
| tr_switch m n :
    tabs_reachable from_file now m ->
    tabs_reachable from_file now (switch_to_tab m n)
| tr_open_ok m path :
    tabs_reachable from_file now m ->
    snd (open_file_in_new_tab from_file m path) <> None ->
    tabs_reachable from_file now (fst (open_file_in_new_tab from_file m path)).

(** The last [k] entries of a stack. *)
Definition lastn {A} (k : nat) (v : list A) : list A := skipn (length v - k) v.

(** The top of stack [u] merges with nothing [prev] does not merge with. *)
Definition covers (u : list EditOperation) (prev : EditOperation) : Prop :=
  forall last z, vec_last u = Some last ->
    try_merge_operations prev z = Some None -> try_merge_operations last z = Some None.

(** Consecutive operations of a sequence do not merge. *)
Fixpoint nonmergeable_chain (ops : list EditOperation) : Prop :=
  match ops with
  | a :: ((b :: _) as rest) =>
      try_merge_operations a b = Some None /\ nonmergeable_chain rest
  | _ => True
  end.

(** An operation whose cursor and scroll snapshots are all zero, for
    concrete runs where they play no part. *)
Definition op0 (e : Edit) : EditOperation :=
  mkEditOperation e (mkPosition 0 0) (mkPosition 0 0) 0 0.

(** One millisecond, in the nanoseconds of [Instant]. *)
Definition ms : N := 1000000.

(** Typing ['a'], ['b'], ['c'] at line 0 from column 0, as [type_character]
    records them: the first push at [t0], the second [g1] later, the third
    [g2] after the second. *)
Definition typing_abc (t0 g1 g2 : Instant) : list (EditOperation * Instant) :=
  [(op0 (InsertText 0 0 (s_ "a")), t0);
   (op0 (InsertText 0 1 (s_ "b")), (t0 + g1)%N);
   (op0 (InsertText 0 2 (s_ "c")), (t0 + g1 + g2)%N)].

(* ------------------------------------------------------------------ *)
(** ** Concrete runs *)

Example apply_insert_text_ex :
  apply (InsertText 0 1 (s_ "XY")) [s_ "ab"] = Some [s_ "aXYb"].
Proof. reflexivity. Qed.

Example reverse_join_ex :
  reverse (JoinLines 0 2) [s_ "abcd"] = Some [s_ "ab"; s_ "cd"].
Proof. reflexivity. Qed.

Example str_lines_ex :
  str_lines (s_ "ab" ++ [carriage_return; newline] ++ s_ "c" ++ [newline])
  = [s_ "ab"; s_ "c"].
Proof. reflexivity. Qed.

Example backspace_ex :
  backspace char_graphemes false (fun _ => None) [s_ "abc"] 0 3
  = Some ([s_ "ab"], Some (DeleteText 0 2 (s_ "c"))).
Proof. reflexivity. Qed.

(* ------------------------------------------------------------------ *)
(** ** Facts about the vector operations *)






Lemma usize_add_nat_some a b c : usize_add_nat a b = Some c -> c = a + b.
Proof. unfold usize_add_nat. destruct (_ <=? _)%N; intros E; inversion E; reflexivity. Qed.

Lemma usize_add_nat_ok a b :
  (N.of_nat a + N.of_nat b <= usize_max)%N -> usize_add_nat a b = Some (a + b).
Proof. intros H. unfold usize_add_nat. rewrite (proj2 (N.leb_le _ _) H). reflexivity. Qed.

Lemma usize_add_nat_succ n : (N.of_nat n < usize_max)%N -> usize_add_nat n 1 = Some (n + 1).
Proof. intros H. apply usize_add_nat_ok. simpl. lia. Qed.

Ltac usize_step :=
  let nx := fresh "nx" in let En := fresh "En" in
  destruct (usize_add_nat _ _) as [nx|] eqn:En; [apply usize_add_nat_some in En; subst nx|].




(* ------------------------------------------------------------------ *)
(** ** C10: [Selection::get_range] *)

(** C10: for every selection, [get_range] returns the anchor and the cursor
    ordered by line then column (the first is not after the second), and
    swapping anchor and cursor gives the same pair; in particular
    [Selection{anchor: (2,5), cursor: (1,0)}.get_range() == ((1,0),(2,5))]. *)
Theorem get_range_order_independent :
  (forall a c : TextPosition,
     get_range (mkSelection a c) = get_range (mkSelection c a) /\
     ((fst (get_range (mkSelection a c)) = a /\ snd (get_range (mkSelection a c)) = c)
      \/ (fst (get_range (mkSelection a c)) = c /\ snd (get_range (mkSelection a c)) = a)) /\
     (line (fst (get_range (mkSelection a c))) < line (snd (get_range (mkSelection a c)))
      \/ (line (fst (get_range (mkSelection a c))) = line (snd (get_range (mkSelection a c)))
          /\ column (fst (get_range (mkSelection a c)))
             <= column (snd (get_range (mkSelection a c)))))) /\
  get_range (mkSelection (mkTextPosition 2 5) (mkTextPosition 1 0))
  = (mkTextPosition 1 0, mkTextPosition 2 5).
Proof.
  split; [|reflexivity].
  intros [la ca] [lc cc]. unfold get_range; simpl.
  destruct (Nat.ltb_spec la lc), (Nat.ltb_spec lc la),
           (Nat.eqb_spec la lc), (Nat.eqb_spec lc la),
           (Nat.ltb_spec ca cc), (Nat.ltb_spec cc ca); simpl;
    try lia; subst;
    repeat split; auto; try lia;
    try (replace cc with ca by lia; auto).
Qed.

(* ------------------------------------------------------------------ *)
(** ** C7: the buffer keeps at least one line *)







(* ------------------------------------------------------------------ *)
(** ** C1, C2: apply and reverse are not inverse *)

(** C1 (code bug): [reverse] after [apply] does not restore the buffer it
    started from. Deleting the selected ["a"] of ["abc"] records
    [ReplaceRange{0,0,0,1, old_text: "a", new_text: ""}]; its [apply] gives
    ["bc"], and [reverse] then splices ["a"] over columns [0..1] of ["bc"]
    (the original [end_column]), giving ["ac"]. [InsertLine] and multi-line
    [ReplaceRange] fail the same way. *)
Theorem apply_reverse_not_inverse :
  apply (ReplaceRange 0 0 0 1 (s_ "a") []) [s_ "abc"] = Some [s_ "bc"] /\
  reverse (ReplaceRange 0 0 0 1 (s_ "a") []) [s_ "bc"] = Some [s_ "ac"] /\
  [s_ "ac"] <> [s_ "abc"] /\
  apply (InsertLine 0 (s_ "b")) [s_ "ab"] = Some [s_ "ab"; s_ "b"] /\
  reverse (InsertLine 0 (s_ "b")) [s_ "ab"; s_ "b"] = Some [s_ "abb"] /\
  apply (ReplaceRange 0 1 1 1 (s_ "b" ++ [newline] ++ s_ "c") [])
        [s_ "ab"; s_ "cd"] = Some [[]] /\
  reverse (ReplaceRange 0 1 1 1 (s_ "b" ++ [newline] ++ s_ "c") []) [[]]
  = Some [[]].
Proof. repeat split; try reflexivity; discriminate. Qed.

(** C2 (code bug): undo then redo of one backspace that merges line 1 of
    [["ab"; "cd"]] into line 0. The forward state is [["abcd"]]; undo gives
    [["ab"; "cdcd"]] instead of [["ab"; "cd"]], and redo then gives
    [["ab"]] instead of [["abcd"]]. *)
Theorem undo_redo_backspace_join :
  backspace char_graphemes false (fun _ => None) [s_ "ab"; s_ "cd"] 1 0
  = Some ([s_ "abcd"], Some (DeleteLine 1 (s_ "cd") 2)) /\
  exists h1, push (new 100 0%N) (op0 (DeleteLine 1 (s_ "cd") 2)) 0%N = Some h1 /\
  option_map snd (action_undo h1 [s_ "abcd"]) = Some [s_ "ab"; s_ "cdcd"] /\
  option_map snd
    (match action_undo h1 [s_ "abcd"] with
     | Some (h2, l2) => action_redo h2 l2
     | None => None
     end) = Some [s_ "ab"].
Proof. split; [reflexivity|]. eexists. split; [reflexivity|]. split; reflexivity. Qed.

(* ------------------------------------------------------------------ *)
(** ** C4: grouping of deletions *)

(** C4 (code bug): two forward deletions (the Delete key) at column 0 of
    line ["ab"], 1ms apart, record [DeleteText{0,0,"a"}] then
    [DeleteText{0,0,"b"}]. Since [0.saturating_sub(1) == 0] they merge into
    one [DeleteText{0,0,"ba"}], and undoing it on the emptied line gives
    ["ba"] instead of ["ab"]. *)
Theorem delete_grouping_column0 :
  exists h, push_all (new 100 0%N)
              [(op0 (DeleteText 0 0 (s_ "a")), 1 * ms);
               (op0 (DeleteText 0 0 (s_ "b")), 2 * ms)]%N = Some h /\
  undo_stack h = [op0 (DeleteText 0 0 (s_ "ba"))] /\
  option_map snd (action_undo h [[]]) = Some [s_ "ba"].
Proof. eexists. split; [reflexivity|]. split; reflexivity. Qed.

(* ------------------------------------------------------------------ *)
(** ** C6: apply and reverse can panic *)

(** C6 (code bug): [apply] panics on a multi-line [ReplaceRange] whose
    [start_line] is past the end of the buffer ([buffer.insert(2, ..)] on a
    one-line buffer), and on an [InsertText] whose column is past the end of
    its line ([chars[..5]] on a two-char line). *)
Theorem apply_panics :
  apply (ReplaceRange 2 0 3 0 [] (s_ "x")) [[]] = None /\
  apply (InsertText 0 5 (s_ "x")) [s_ "ab"] = None /\
  reverse (DeleteLine 1 (s_ "x") 3) [s_ "ab"; []] = None.
Proof. repeat split; reflexivity. Qed.

(* ------------------------------------------------------------------ *)
(** ** C9: [remove_grapheme_at] at [usize::MAX] *)

(** C9 (code bug): [remove_grapheme_at(s, usize::MAX)] computes
    [grapheme_idx + 1], which overflows and panics (with overflow checks,
    as in debug builds), for every string and every segmentation. *)
Theorem remove_grapheme_at_max_panics :
  forall (graphemes : str -> list str) (s : str),
    remove_grapheme_at graphemes s usize_max = None.
Proof. intros graphemes s. unfold remove_grapheme_at, usize_add. reflexivity. Qed.

(* ------------------------------------------------------------------ *)
(** ** C5: capacity eviction *)

Lemma vec_last_app {A} (u : list A) (a : A) : vec_last (u ++ [a]) = Some a.
Proof.
  induction u as [|b u IH]; [reflexivity|].
  simpl. destruct (u ++ [a]) eqn:E; [destruct u; discriminate|exact IH].
Qed.

Lemma vec_last_none {A} (u : list A) : vec_last u = None -> u = [].
Proof.
  induction u as [|b u IH]; [auto|]. simpl.
  destruct u; [discriminate|]. intros H. apply IH in H. discriminate.
Qed.

Lemma vec_last_some {A} (u : list A) (a : A) :
  vec_last u = Some a -> u = removelast u ++ [a].
Proof.
  induction u as [|b u IH]; [discriminate|]. simpl.
  destruct u as [|c u]; [intros H; inversion H; reflexivity|].
  intros H. rewrite (IH H) at 1. reflexivity.
Qed.

Lemma vec_last_skipn_app {A} n (u : list A) (a b : A) :
  vec_last (skipn n (u ++ [a])) = Some b -> b = a.
Proof.
  rewrite skipn_app. destruct (Nat.leb_spec n (length u)).
  - replace (n - length u) with 0 by lia. simpl.
    rewrite vec_last_app. congruence.
  - rewrite skipn_all2 by lia. simpl.
    destruct (n - length u) eqn:E; [lia|]. intros Hl. simpl in Hl.
    destruct n0; discriminate Hl.
Qed.

Lemma str_len_app (s t : str) : str_len (s ++ t) = str_len s + str_len t.
Proof. induction s as [|c s IH]; simpl; lia. Qed.

Lemma usize_add_nat_assoc a b c :
  usize_add_nat a (b + c) = usize_add_nat (a + b) c.
Proof.
  unfold usize_add_nat. rewrite !Nat2N.inj_add, N.add_assoc, Nat.add_assoc.
  reflexivity.
Qed.

(** A merged operation merges with exactly what the newer of its two parts
    merges with. *)
Lemma try_merge_merged last op m z :
  try_merge_operations last op = Some (Some m) ->
  try_merge_operations op z = Some None -> try_merge_operations m z = Some None.
Proof.
  unfold try_merge_operations.
  destruct (edit last) as [l1 c1 t1|l1 c1 t1| | | |]; try discriminate;
  destruct (edit op) as [l2 c2 t2|l2 c2 t2| | | |]; try discriminate.
  - destruct (Nat.eqb_spec l1 l2) as [<-|]; [|discriminate].
    usize_step; [|discriminate].
    destruct (Nat.eqb_spec (c1 + str_len t1) c2) as [<-|]; [|discriminate].
    intros E; injection E as <-. simpl.
    destruct (edit z) as [l3 c3 t3| | | | |]; auto.
    rewrite str_len_app, usize_add_nat_assoc.
    destruct (l1 =? l3); [|auto].
    destruct (usize_add_nat _ _); [|intros H; exact H].
    destruct (_ =? c3); intros H; [discriminate H|reflexivity].
  - destruct (Nat.eqb_spec l1 l2) as [<-|]; simpl; [|discriminate].
    destruct (Nat.eqb_spec c2 (c1 - str_len t2)); [|discriminate].
    intros E; injection E as <-. simpl.
    destruct (edit z) as [|l3 c3 t3| | | |]; auto.
    destruct (_ && _); auto. intros Hz; discriminate Hz.
Qed.

Lemma trim_lastn {A} k (u : list A) (a : A) :
  length u <= k ->
  (if k <? length (u ++ [a]) then tl (u ++ [a]) else u ++ [a])
  = lastn k (u ++ [a]).
Proof.
  intros H. unfold lastn. rewrite length_app; simpl.
  destruct (Nat.ltb_spec k (length u + 1)).
  - replace (length u + 1 - k) with 1 by lia. destruct (u ++ [a]); reflexivity.
  - replace (length u + 1 - k) with 0 by lia. reflexivity.
Qed.

Lemma length_lastn {A} k (v : list A) : length (lastn k v) <= k.
Proof. unfold lastn. rewrite length_skipn. lia. Qed.

Lemma lastn_app_lastn {A} k (l m : list A) :
  lastn k (lastn k l ++ m) = lastn k (l ++ m).
Proof.
  unfold lastn. rewrite !length_app, length_skipn.
  rewrite (skipn_app (length l + length m - k) l m).
  rewrite skipn_app, skipn_skipn, length_skipn.
  f_equal; [f_equal; lia|f_equal; lia].
Qed.

Lemma lastn_exact {A} k (u w : list A) : length w = k -> lastn k (u ++ w) = w.
Proof.
  intros H. unfold lastn. rewrite length_app, skipn_app.
  rewrite skipn_all2 by lia. replace (length u + length w - k - length u) with 0 by lia.
  reflexivity.
Qed.

(** [push] of an operation that the top of the stack does not merge with:
    a new entry, the oldest evicted past capacity. *)
Lemma push_no_merge h op t :
  (forall last, vec_last (undo_stack h) = Some last ->
     try_merge_operations last op = Some None) ->
  push h op t = Some (push_new (with_stacks h (undo_stack h) [] (last_edit_time h)) op t).
Proof.
  intros Hn. unfold push. cbv zeta.
  destruct (can_group_with_last _ _ _); [|reflexivity].
  simpl. unfold vec_pop. destruct (vec_last (undo_stack h)) as [last|] eqn:E;
    [|reflexivity].
  rewrite (Hn last eq_refl). reflexivity.
Qed.

(** The two outcomes of a [push] that does not panic. *)
Lemma push_cases h op t h' :
  push h op t = Some h' ->
  h' = push_new (with_stacks h (undo_stack h) [] (last_edit_time h)) op t \/
  exists last m, vec_last (undo_stack h) = Some last /\
    try_merge_operations last op = Some (Some m) /\
    h' = with_stacks h (removelast (undo_stack h) ++ [m]) [] t.
Proof.
  unfold push. cbv zeta.
  destruct (can_group_with_last _ _ _);
    [|intros E; injection E as <-; left; reflexivity].
  simpl. unfold vec_pop. destruct (vec_last (undo_stack h)) as [last|] eqn:E;
    [|intros E'; injection E' as <-; left; reflexivity].
  destruct (try_merge_operations last op) as [[m|]|] eqn:Em; intros E';
    try discriminate E'; injection E' as <-.
  - right. exists last, m. split; [reflexivity|]. split; [exact Em|reflexivity].
  - left. reflexivity.
Qed.

Lemma push_max h op t h' : push h op t = Some h' -> max_history h' = max_history h.
Proof.
  intros E. destruct (push_cases h op t h' E) as [->|(l & m & _ & _ & ->)]; reflexivity.
Qed.

Lemma push_redo h op t h' : push h op t = Some h' -> redo_stack h' = [].
Proof.
  intros E. destruct (push_cases h op t h' E) as [->|(l & m & _ & _ & ->)]; reflexivity.
Qed.

(** Every [push] leaves a bounded stack whose top covers the pushed op. *)
Lemma push_bounded_covers h op t h' :
  length (undo_stack h) <= max_history h ->
  push h op t = Some h' ->
  length (undo_stack h') <= max_history h /\ covers (undo_stack h') op.
Proof.
  intros Hl E. destruct (push_cases h op t h' E) as [->|(last & m & El & Em & ->)].
  - simpl. rewrite trim_lastn by exact Hl. split; [apply length_lastn|].
    intros last z Hlast Hz. unfold lastn in Hlast.
    apply vec_last_skipn_app in Hlast. subst. exact Hz.
  - simpl. split.
    + rewrite (vec_last_some _ _ El) in Hl. rewrite length_app in *. simpl in *. exact Hl.
    + intros last' z Hlast Hz. rewrite vec_last_app in Hlast. injection Hlast as <-.
      exact (try_merge_merged last op m z Em Hz).
Qed.

Lemma push_all_evict rest : forall h prev,
  length (undo_stack h) <= max_history h ->
  covers (undo_stack h) prev ->
  nonmergeable_chain (prev :: map fst rest) ->
  exists h', push_all h rest = Some h' /\
    undo_stack h' = lastn (max_history h) (undo_stack h ++ map fst rest).
Proof.
  induction rest as [|[op t] rest IH]; intros h prev Hl Hc Hch.
  - exists h. split; [reflexivity|]. simpl. rewrite app_nil_r. unfold lastn.
    replace (length (undo_stack h) - max_history h) with 0 by lia. reflexivity.
  - simpl in Hch. destruct Hch as [Hm Hch].
    assert (Hn : forall last, vec_last (undo_stack h) = Some last ->
                   try_merge_operations last op = Some None)
      by (intros last E; exact (Hc last op E Hm)).
    pose proof (push_no_merge h op t Hn) as Ep.
    set (h1 := push_new (with_stacks h (undo_stack h) [] (last_edit_time h)) op t) in Ep.
    destruct (push_bounded_covers h op t h1 Hl Ep) as [Hl' Hc'].
    rewrite <- (push_max h op t h1 Ep) in Hl'.
    destruct (IH h1 op Hl' Hc' Hch) as (h' & E' & U').
    exists h'. split; [cbn [push_all]; rewrite Ep; exact E'|].
    rewrite U', (push_max h op t h1 Ep).
    assert (U1 : undo_stack h1 = (if max_history h <? length (undo_stack h ++ [op])
                 then tl (undo_stack h ++ [op]) else undo_stack h ++ [op])) by reflexivity.
    rewrite U1, trim_lastn by exact Hl.
    simpl map. rewrite lastn_app_lastn, <- app_assoc. reflexivity.
Qed.

Lemma reachable_bounded h :
  reachable h -> length (undo_stack h) + length (redo_stack h) <= max_history h.
Proof.
  induction 1 as [m t|h op t h' _ IH E|h _ IH|h _ IH].
  - simpl. lia.
  - rewrite (push_redo h op t h' E), (push_max h op t h' E). simpl.
    pose proof (push_bounded_covers h op t h' ltac:(lia) E) as [Hl _]. lia.
  - unfold undo. destruct (vec_pop (undo_stack h)) as [[op rest]|] eqn:E; [|exact IH].
    simpl. unfold vec_pop in E. destruct (vec_last (undo_stack h)) eqn:E'; [|discriminate].
    inversion E; subst. rewrite (vec_last_some _ _ E'), length_app in IH.
    rewrite length_app. simpl in *. lia.
  - unfold redo. destruct (vec_pop (redo_stack h)) as [[op rest]|] eqn:E; [|exact IH].
    simpl. unfold vec_pop in E. destruct (vec_last (redo_stack h)) eqn:E'; [|discriminate].
    inversion E; subst. rewrite (vec_last_some _ _ E'), length_app in IH.
    rewrite length_app. simpl in *. lia.
Qed.

(** Every history the program builds holds at most [max_history] entries
    on its undo stack. Pushing [max_history + 1] operations, no two
    consecutive of which merge, onto such a history, the first push not
    panicking, panics at no later push and leaves exactly the last
    [max_history] of them: the first pushed is evicted, the most recent
    retained. *)
Theorem push_eviction :
  (forall h, reachable h -> length (undo_stack h) <= max_history h) /\
  (forall h op t rest h1, reachable h ->
     length rest = max_history h ->
     nonmergeable_chain (op :: map fst rest) ->
     push h op t = Some h1 ->
     exists h', push_all h ((op, t) :: rest) = Some h' /\ undo_stack h' = map fst rest).
Proof.
  split.
  - intros h Hr. pose proof (reachable_bounded h Hr). lia.
  - intros h op t rest h1 Hr Hlen Hch E.
    pose proof (reachable_bounded h Hr) as Hb.
    destruct (push_bounded_covers h op t h1 ltac:(lia) E) as [Hl1 Hc1].
    rewrite <- (push_max h op t h1 E) in Hl1.
    destruct (push_all_evict rest h1 op Hl1 Hc1 Hch) as (h' & E' & U').
    exists h'. split; [cbn [push_all]; rewrite E; exact E'|].
    rewrite U'. apply lastn_exact. rewrite length_map, (push_max h op t h1 E). exact Hlen.
Qed.

(** Witness for [push_eviction]: capacity 2, three insertions on three
    lines. *)
Lemma push_eviction_witness :
  reachable (new 2 0%N) /\
  exists h', push_all (new 2 0%N)
    [(op0 (InsertText 0 0 (s_ "a")), 0%N); (op0 (InsertText 1 0 (s_ "b")), 1%N);
     (op0 (InsertText 2 0 (s_ "c")), 2%N)] = Some h' /\
  undo_stack h' = [op0 (InsertText 1 0 (s_ "b")); op0 (InsertText 2 0 (s_ "c"))].
Proof.
  assert (Hr : reachable (new 2 0%N)) by constructor.
  assert (Hc : nonmergeable_chain (map fst [(op0 (InsertText 0 0 (s_ "a")), 0%N);
                               (op0 (InsertText 1 0 (s_ "b")), 1%N);
                               (op0 (InsertText 2 0 (s_ "c")), 2%N)]))
    by (simpl; repeat split; reflexivity).
  split; [exact Hr|].
  exact (proj2 push_eviction (new 2 0%N) (op0 (InsertText 0 0 (s_ "a"))) 0%N
           [(op0 (InsertText 1 0 (s_ "b")), 1%N); (op0 (InsertText 2 0 (s_ "c")), 2%N)]
           _ Hr eq_refl Hc eq_refl).
Defined.

(** C5 (code bug): capacity 2, three operations pushed 1ms apart, no two
    consecutive of which merge: [InsertText] of ["a"] at column
    [usize::MAX] of line 0, [InsertText] of ["b"] at column 0 of line 0,
    [InsertText] of ["c"] on line 1. The second push reaches the guard
    [*c1 + t1.len() == *c2], whose addition [usize::MAX + 1] overflows:
    [push] panics instead of leaving the last two operations. *)
Theorem push_capacity_overflow :
  N.to_nat usize_max + str_len (s_ "a") <> 0 /\
  push_all (new 2 0%N)
    [(op0 (InsertText 0 (N.to_nat usize_max) (s_ "a")), 1 * ms);
     (op0 (InsertText 0 0 (s_ "b")), 2 * ms);
     (op0 (InsertText 1 0 (s_ "c")), 3 * ms)]%N = None.
Proof.
  split.
  - change (str_len (s_ "a")) with 1. rewrite Nat.add_1_r. apply Nat.neq_succ_0.
  - assert (H : forall n, N.of_nat n = usize_max ->
      push_all (new 2 0%N)
        [(op0 (InsertText 0 n (s_ "a")), 1 * ms);
         (op0 (InsertText 0 0 (s_ "b")), 2 * ms);
         (op0 (InsertText 1 0 (s_ "c")), 3 * ms)]%N = None).
    { intros n Hn. cbn. unfold usize_add_nat. rewrite Hn. reflexivity. }
    apply H. apply N2Nat.id.
Qed.

(* ------------------------------------------------------------------ *)
(** ** C3: grouping of insertions *)

Lemma elapsed_millis_le t now :
  (elapsed_millis t now <= 500)%N <-> (now - t < 501 * ms)%N.
Proof.
  unfold elapsed_millis, ms. set (d := (now - t)%N). split; intros H.
  - destruct (N.lt_ge_cases d (501 * 1000000)) as [Hlt|Hge]; [exact Hlt|].
    exfalso. assert (Hq : (501 <= d / 1000000)%N)
      by (apply N.div_le_lower_bound; lia).
    lia.
  - pose proof (N.Div0.mul_div_le d 1000000) as Hm.
    set (q := (d / 1000000)%N) in *. lia.
Qed.

(** A [try_merge_operations] that does not return [false] is on a pair
    that [can_group_with_last] accepts. *)
Lemma try_merge_groupable last op :
  try_merge_operations last op <> Some None ->
  match edit last, edit op with
  | InsertText l1 _ _, InsertText l2 _ _ => l1 =? l2
  | DeleteText l1 _ _, DeleteText l2 _ _ => l1 =? l2
  | _, _ => false
  end = true.
Proof.
  unfold try_merge_operations.
  destruct (edit last), (edit op); try (intros H; congruence);
    destruct (_ =? _); simpl; intros H; solve [reflexivity | congruence].
Qed.

Lemma can_group_true h op now last :
  vec_last (undo_stack h) = Some last ->
  (elapsed_millis (last_edit_time h) now <= grouping_threshold_ms h)%N ->
  try_merge_operations last op <> Some None ->
  can_group_with_last h op now = true.
Proof.
  intros Hl Ht Hm. unfold can_group_with_last.
  destruct (undo_stack h) as [|u0 us] eqn:Eu; [discriminate|].
  rewrite Hl.
  destruct (N.ltb_spec (grouping_threshold_ms h)
              (elapsed_millis (last_edit_time h) now)); [lia|].
  exact (try_merge_groupable last op Hm).
Qed.

(** [push] merging into the top of the stack. *)
Lemma push_merges h op now last m :
  vec_last (undo_stack h) = Some last ->
  (elapsed_millis (last_edit_time h) now <= grouping_threshold_ms h)%N ->
  try_merge_operations last op = Some (Some m) ->
  push h op now = Some (with_stacks h (removelast (undo_stack h) ++ [m]) [] now).
Proof.
  intros Hl Ht Hm. unfold push. cbv zeta.
  rewrite (can_group_true (with_stacks h (undo_stack h) [] (last_edit_time h))
             op now last Hl Ht) by congruence.
  simpl. unfold vec_pop. rewrite Hl, Hm. reflexivity.
Qed.

(** [push] panicking in the merge guard. *)
Lemma push_panics h op now last :
  vec_last (undo_stack h) = Some last ->
  (elapsed_millis (last_edit_time h) now <= grouping_threshold_ms h)%N ->
  try_merge_operations last op = None ->
  push h op now = None.
Proof.
  intros Hl Ht Hm. unfold push. cbv zeta.
  rewrite (can_group_true (with_stacks h (undo_stack h) [] (last_edit_time h))
             op now last Hl Ht) by congruence.
  simpl. unfold vec_pop. rewrite Hl, Hm. reflexivity.
Qed.

(** [push] past the grouping window: a new entry. *)
Lemma push_late h op now :
  (grouping_threshold_ms h < elapsed_millis (last_edit_time h) now)%N ->
  push h op now
  = Some (push_new (with_stacks h (undo_stack h) [] (last_edit_time h)) op now).
Proof.
  intros Ht. unfold push. cbv zeta.
  replace (can_group_with_last _ op now) with false; [reflexivity|].
  unfold can_group_with_last; simpl.
  destruct (undo_stack h); [reflexivity|].
  destruct (N.ltb_spec (grouping_threshold_ms h)
              (elapsed_millis (last_edit_time h) now)); [reflexivity|lia].
Qed.

(** [push] onto an empty undo stack: a new entry. *)
Lemma push_empty h op now :
  undo_stack h = [] ->
  push h op now
  = Some (push_new (with_stacks h (undo_stack h) [] (last_edit_time h)) op now).
Proof.
  intros He. unfold push. cbv zeta.
  replace (can_group_with_last _ op now) with false; [reflexivity|].
  unfold can_group_with_last; simpl. rewrite He. reflexivity.
Qed.

Lemma typing_abc_first tc t0 :
  push (new 500 tc) (op0 (InsertText 0 0 (s_ "a"))) t0
  = Some (mkEditHistory [op0 (InsertText 0 0 (s_ "a"))] [] 500 t0 500%N).
Proof. rewrite push_empty by reflexivity. reflexivity. Qed.

Lemma typing_abc_second t0 g1 :
  (g1 < 501 * ms)%N ->
  push (mkEditHistory [op0 (InsertText 0 0 (s_ "a"))] [] 500 t0 500%N)
       (op0 (InsertText 0 1 (s_ "b"))) (t0 + g1)%N
  = Some (mkEditHistory [op0 (InsertText 0 0 (s_ "ab"))] [] 500 (t0 + g1)%N 500%N).
Proof.
  intros Hg.
  rewrite (push_merges _ _ _ (op0 (InsertText 0 0 (s_ "a")))
             (op0 (InsertText 0 0 (s_ "ab")))); [reflexivity|reflexivity| |reflexivity].
  simpl. apply elapsed_millis_le. lia.
Qed.

(** [push] of an [InsertText] onto a top [InsertText] on the same line,
    less than 501ms after the last push (at most 500 whole, truncated
    milliseconds), under [EditHistory::new(500)]'s threshold: the guard
    adds [t1.len()], the byte length of the old text, to the old column
    [c1]. (a) When that addition overflows [usize], [push] panics;
    otherwise it merges the two (texts concatenated, the old entry's column
    and before-snapshots, the new one's after-snapshots) if the sum is the
    new column [c2], and pushes the new operation as a new entry if not.
    (b) From [EditHistory::new(500)], typing ['a'], ['b'], ['c'] at line 0
    from column 0, each push less than 501ms after the previous one, yields
    one entry ["abc"]; a gap of at least 501ms before ['c'] yields two
    entries ["ab"] and ["c"]. *)
Theorem insert_grouping :
  (forall h op now last l c1 t1 c2 t2,
     grouping_threshold_ms h = 500%N ->
     (now - last_edit_time h < 501 * ms)%N ->
     vec_last (undo_stack h) = Some last ->
     edit last = InsertText l c1 t1 ->
     edit op = InsertText l c2 t2 ->
     ((usize_max < N.of_nat c1 + N.of_nat (str_len t1))%N -> push h op now = None) /\
     ((N.of_nat c1 + N.of_nat (str_len t1) <= usize_max)%N ->
      c2 = c1 + str_len t1 ->
      option_map undo_stack (push h op now)
      = Some (removelast (undo_stack h)
        ++ [mkEditOperation (InsertText l c1 (t1 ++ t2))
              (cursor_before last) (cursor_after op)
              (scroll_before last) (scroll_after op)])) /\
     ((N.of_nat c1 + N.of_nat (str_len t1) <= usize_max)%N ->
      c2 <> c1 + str_len t1 ->
      option_map undo_stack (push h op now)
      = Some (if max_history h <? length (undo_stack h ++ [op])
              then tl (undo_stack h ++ [op]) else undo_stack h ++ [op]))) /\
  (forall tc t0 g1 g2,
     (g1 < 501 * ms)%N ->
     ((g2 < 501 * ms)%N ->
      option_map undo_stack (push_all (new 500 tc) (typing_abc t0 g1 g2))
      = Some [op0 (InsertText 0 0 (s_ "abc"))]) /\
     ((501 * ms <= g2)%N ->
      option_map undo_stack (push_all (new 500 tc) (typing_abc t0 g1 g2))
      = Some [op0 (InsertText 0 0 (s_ "ab")); op0 (InsertText 0 2 (s_ "c"))])).
Proof.
  split.
  - intros h op now last l c1 t1 c2 t2 Hthr Hel Hl He1 He2.
    assert (Ht : (elapsed_millis (last_edit_time h) now <= grouping_threshold_ms h)%N)
      by (rewrite Hthr; apply elapsed_millis_le; exact Hel).
    split; [|split].
    + intros Ho. apply (push_panics h op now last Hl Ht).
      unfold try_merge_operations. rewrite He1, He2, Nat.eqb_refl.
      unfold usize_add_nat. rewrite (proj2 (N.leb_gt _ _) Ho). reflexivity.
    + intros Ho Hc.
      rewrite (push_merges h op now last
                 (mkEditOperation (InsertText l c1 (t1 ++ t2))
                    (cursor_before last) (cursor_after op)
                    (scroll_before last) (scroll_after op)) Hl Ht); [reflexivity|].
      unfold try_merge_operations. rewrite He1, He2, Nat.eqb_refl, (usize_add_nat_ok _ _ Ho).
      cbn beta iota. rewrite <- Hc, Nat.eqb_refl. reflexivity.
    + intros Ho Hc. rewrite push_no_merge; [reflexivity|].
      intros last' Hl'. rewrite Hl in Hl'. injection Hl' as <-.
      unfold try_merge_operations. rewrite He1, He2, Nat.eqb_refl, (usize_add_nat_ok _ _ Ho).
      cbn beta iota. destruct (Nat.eqb_spec (c1 + str_len t1) c2); [lia|reflexivity].
  - intros tc t0 g1 g2 Hg1. unfold typing_abc. cbn [push_all].
    rewrite typing_abc_first. cbn beta iota.
    rewrite (typing_abc_second t0 g1 Hg1). cbn beta iota.
    split.
    + intros Hg2.
      rewrite (push_merges _ _ _ (op0 (InsertText 0 0 (s_ "ab")))
                 (op0 (InsertText 0 0 (s_ "abc")))); [reflexivity|reflexivity| |reflexivity].
      simpl. apply elapsed_millis_le. lia.
    + intros Hg2. rewrite push_late; [reflexivity|].
      simpl. destruct (N.le_gt_cases (elapsed_millis (t0 + g1) (t0 + g1 + g2)) 500)%N
        as [Hle|Hgt]; [|exact Hgt].
      apply elapsed_millis_le in Hle. lia.
Qed.

(** Witness for [insert_grouping]: the merge case at a concrete history,
    and the late ['c']. *)
Lemma insert_grouping_witness :
  (1 * ms - 0 < 501 * ms)%N /\
  (N.of_nat 0 + N.of_nat (str_len (s_ "a")) <= usize_max)%N /\
  option_map undo_stack
    (push (mkEditHistory [op0 (InsertText 0 0 (s_ "a"))] [] 500 0%N 500%N)
          (op0 (InsertText 0 1 (s_ "b"))) (1 * ms)%N)
  = Some [op0 (InsertText 0 0 (s_ "ab"))] /\
  (1 * ms < 501 * ms)%N /\ (501 * ms <= 501 * ms)%N /\
  option_map undo_stack (push_all (new 500 0%N) (typing_abc 0%N (1 * ms)%N (501 * ms)%N))
  = Some [op0 (InsertText 0 0 (s_ "ab")); op0 (InsertText 0 2 (s_ "c"))].
Proof.
  assert (H1 : (1 * ms - 0 < 501 * ms)%N) by (unfold ms; lia).
  assert (H0 : (N.of_nat 0 + N.of_nat (str_len (s_ "a")) <= usize_max)%N)
    by (unfold usize_max; simpl; lia).
  assert (H2 : (1 * ms < 501 * ms)%N) by (unfold ms; lia).
  assert (H3 : (501 * ms <= 501 * ms)%N) by lia.
  split; [exact H1|]. split; [exact H0|]. split.
  - exact (proj1 (proj2 (proj1 insert_grouping
                    (mkEditHistory [op0 (InsertText 0 0 (s_ "a"))] [] 500 0%N 500%N)
                    (op0 (InsertText 0 1 (s_ "b"))) (1 * ms)%N
                    (op0 (InsertText 0 0 (s_ "a"))) 0 0 (s_ "a") 1 (s_ "b")
                    eq_refl H1 eq_refl eq_refl eq_refl)) H0 eq_refl).
  - split; [exact H2|]. split; [exact H3|].
    exact (proj2 (proj2 insert_grouping 0%N 0%N (1 * ms)%N (501 * ms)%N H2) H3).
Defined.

(** C3 (code bug): typing ['é'] (U+00E9, one character of two UTF-8
    bytes) and then ['b'] into an empty line 0, 1ms apart, records
    [InsertText] of ["é"] at column 0 and [InsertText] of ["b"] at column
    1: contiguous typing, yet [push] keeps two entries, since it compares
    the new column 1 with [0 + "é".len() = 2]. The same keystrokes with
    ['a'] in place of ['é'] merge into one entry ["ab"]. And on the same
    line, an old entry at column [usize::MAX] with text ["a"] makes the
    guard's addition overflow: [try_merge_operations] panics. *)
Theorem insert_grouping_bytes :
  type_character_in_line char_graphemes false 233 [[]] 0 0
  = Some ([[233]], Some (InsertText 0 0 [233])) /\
  type_character_in_line char_graphemes false 98 [[233]] 0 1
  = Some ([[233; 98]], Some (InsertText 0 1 (s_ "b"))) /\
  str_len [233] = 2 /\
  option_map undo_stack
    (push_all (new 500 0%N) [(op0 (InsertText 0 0 [233]), (1 * ms)%N);
                             (op0 (InsertText 0 1 (s_ "b")), (2 * ms)%N)])
  = Some [op0 (InsertText 0 0 [233]); op0 (InsertText 0 1 (s_ "b"))] /\
  option_map undo_stack
    (push_all (new 500 0%N) [(op0 (InsertText 0 0 (s_ "a")), 1 * ms);
                             (op0 (InsertText 0 1 (s_ "b")), 2 * ms)]%N)
  = Some [op0 (InsertText 0 0 (s_ "ab"))] /\
  try_merge_operations (op0 (InsertText 0 (N.to_nat usize_max) (s_ "a")))
                       (op0 (InsertText 0 0 (s_ "b"))) = None.
Proof.
  split; [reflexivity|]. split; [reflexivity|]. split; [reflexivity|].
  split; [reflexivity|]. split; [reflexivity|].
  assert (H : forall n, N.of_nat n = usize_max ->
    try_merge_operations (op0 (InsertText 0 n (s_ "a")))
                         (op0 (InsertText 0 0 (s_ "b"))) = None).
  { intros n Hn. cbn. unfold usize_add_nat. rewrite Hn. reflexivity. }
  apply H. apply N2Nat.id.
Qed.


(* ------------------------------------------------------------------ *)
(** ** Grapheme utilities over a segmentation *)

Lemma utf8_len_pos c : 1 <= utf8_len c.
Proof. unfold utf8_len. destruct (c <? 128), (c <? 2048), (c <? Nat.pow 2 16); lia. Qed.

Lemma str_len_pos (g : str) : g <> [] -> 0 < str_len g.
Proof. destruct g as [|c g]; [congruence|]. simpl. pose proof (utf8_len_pos c). lia. Qed.

Lemma split_at_byte_app (p q : str) : split_at_byte (p ++ q) (str_len p) = Some (p, q).
Proof.
  induction p as [|c p IH]; [destruct q; reflexivity|].
  pose proof (utf8_len_pos c) as Hc. simpl app. cbn [str_len].
  replace (utf8_len c + str_len p) with (S (utf8_len c + str_len p - 1)) by lia.
  cbn [split_at_byte].
  replace (S (utf8_len c + str_len p - 1) <? utf8_len c) with false
    by (symmetry; apply Nat.ltb_ge; lia).
  replace (S (utf8_len c + str_len p - 1) - utf8_len c) with (str_len p) by lia.
  rewrite IH. reflexivity.
Qed.

Lemma str_len_concat_app (l1 l2 : list str) :
  str_len (concat (l1 ++ l2)) = str_len (concat l1) + str_len (concat l2).
Proof. rewrite concat_app. apply str_len_app. Qed.

Lemma nth_N_nth_error {A} (l : list A) i : nth_N l i = nth_error l (N.to_nat i).
Proof.
  revert i; induction l as [|a l IH]; intros i; simpl.
  - destruct (N.to_nat i); reflexivity.
  - destruct (N.eqb_spec i 0) as [->|Hi]; [reflexivity|].
    rewrite IH, N2Nat.inj_pred.
    destruct (N.to_nat i) eqn:E; [lia|reflexivity].
Qed.

Lemma skip_N_skipn {A} (l : list A) i : skip_N i l = skipn (N.to_nat i) l.
Proof.
  revert i; induction l as [|a l IH]; intros i; simpl.
  - destruct (N.to_nat i); reflexivity.
  - destruct (N.eqb_spec i 0) as [->|Hi]; [reflexivity|].
    rewrite IH, N2Nat.inj_pred.
    destruct (N.to_nat i) eqn:E; [lia|reflexivity].
Qed.

Lemma take_N_firstn {A} (l : list A) i : take_N i l = firstn (N.to_nat i) l.
Proof.
  revert i; induction l as [|a l IH]; intros i; simpl.
  - destruct (N.to_nat i); reflexivity.
  - destruct (N.eqb_spec i 0) as [->|Hi]; [reflexivity|].
    rewrite IH, N2Nat.inj_pred.
    destruct (N.to_nat i) eqn:E; [lia|reflexivity].
Qed.

Lemma grapheme_offsets_nth gs off k :
  nth_error (grapheme_offsets gs off) k
  = option_map (fun g => (off + str_len (concat (firstn k gs)), g)) (nth_error gs k).
Proof.
  revert off k; induction gs as [|g gs IH]; intros off [|k]; simpl; auto.
  - rewrite Nat.add_0_r. reflexivity.
  - rewrite IH. destruct (nth_error gs k); simpl; [|reflexivity].
    rewrite str_len_app. do 2 f_equal. lia.
Qed.

Section GraphemeFacts.

Variable graphemes : str -> list str.
Hypothesis graphemes_concat : forall s, concat (graphemes s) = s.
Hypothesis graphemes_nonempty : forall s g, In g (graphemes s) -> g <> [].

Lemma grapheme_to_byte_idx_prefix s i :
  grapheme_to_byte_idx graphemes s i
  = str_len (concat (firstn (N.to_nat i) (graphemes s))).
Proof.
  unfold grapheme_to_byte_idx. rewrite nth_N_nth_error, grapheme_offsets_nth.
  destruct (nth_error (graphemes s) (N.to_nat i)) eqn:E; simpl; [reflexivity|].
  apply nth_error_None in E. rewrite firstn_all2 by exact E.
  rewrite graphemes_concat. reflexivity.
Qed.

Lemma split_at_grapheme_spec s i :
  split_at_grapheme graphemes s i
  = Some (concat (firstn (N.to_nat i) (graphemes s)),
          concat (skipn (N.to_nat i) (graphemes s))).
Proof.
  unfold split_at_grapheme. rewrite grapheme_to_byte_idx_prefix.
  rewrite <- (graphemes_concat s) at 1.
  rewrite <- (firstn_skipn (N.to_nat i) (graphemes s)) at 1.
  rewrite concat_app. apply split_at_byte_app.
Qed.

(** [remove_grapheme_at] inside the string removes exactly cluster [i]. *)
Lemma remove_grapheme_at_inside s i l1 g l2 :
  graphemes s = l1 ++ g :: l2 ->
  length l1 = N.to_nat i ->
  (i + 1 <= usize_max)%N ->
  remove_grapheme_at graphemes s i = Some (concat l1 ++ concat l2, Some g).
Proof.
  intros Hs Hl Hi. unfold remove_grapheme_at, usize_add.
  destruct (N.leb_spec (i + 1) usize_max); [|lia].
  rewrite !grapheme_to_byte_idx_prefix, Hs.
  assert (E1 : firstn (N.to_nat i) (l1 ++ g :: l2) = l1).
  { rewrite <- Hl, firstn_app, Nat.sub_diag, firstn_all. apply app_nil_r. }
  assert (E2 : firstn (N.to_nat (i + 1)) (l1 ++ g :: l2) = l1 ++ [g]).
  { replace (N.to_nat (i + 1)) with (length l1 + 1) by lia.
    rewrite firstn_app, firstn_all2 by lia. f_equal.
    replace (length l1 + 1 - length l1) with 1 by lia. reflexivity. }
  rewrite E1, E2.
  assert (Hg : g <> []) by (apply (graphemes_nonempty s); rewrite Hs; apply in_elt).
  pose proof (str_len_pos g Hg) as Hpos.
  assert (Hstr : s = (concat l1 ++ g) ++ concat l2).
  { rewrite <- (graphemes_concat s), Hs, concat_app. simpl. rewrite app_assoc. reflexivity. }
  replace (str_len s) with (str_len (concat l1) + str_len g + str_len (concat l2))
    by (rewrite Hstr, !str_len_app; reflexivity).
  destruct (Nat.ltb_spec (str_len (concat l1))
              (str_len (concat l1) + str_len g + str_len (concat l2))); [|lia].
  unfold drain.
  replace (str_len (concat (l1 ++ [g]))) with (str_len (concat l1 ++ g))
    by (rewrite concat_app; simpl; rewrite app_nil_r; reflexivity).
  rewrite Hstr at 1. rewrite split_at_byte_app, split_at_byte_app.
  reflexivity.
Qed.

End GraphemeFacts.

Lemma char_graphemes_concat s : concat (char_graphemes s) = s.
Proof. unfold char_graphemes. induction s as [|c s IH]; simpl; [reflexivity|]. rewrite IH. reflexivity. Qed.

Lemma char_graphemes_nonempty s g : In g (char_graphemes s) -> g <> [].
Proof. unfold char_graphemes. intros Hin. apply in_map_iff in Hin as (c & <- & _). discriminate. Qed.

(** ** C8: backspace *)

(** Backspace, given the buffer lines, the line index [l] and the grapheme
    column [c], for a segmentation [graphemes] whose clusters are non-empty
    and concatenate back to the line:
    - with an active selection it returns what [delete_selection] returns;
    - with [c > 0] and line [l] holding at least [c] clusters, it removes
      cluster [c - 1] of that line and returns [DeleteText l (c - 1) g]
      with [g] the removed cluster ([c] being a [usize]);
    - with [c > 0] and line [l] missing or shorter than [c] clusters, it
      changes nothing and returns no operation;
    - with [c = 0] and [0 < l < length lines], when [MARGIN + prev_len as
      u16] fits in [u16], it appends line [l] to line [l - 1], removes line
      [l] and returns [DeleteLine l content prev_len] with [content] the old
      line [l] and [prev_len] the cluster count of the old line [l - 1];
      when that sum overflows [u16], it panics;
    - with [c = 0] and [l] at or past the end (and [l > 0]), it panics;
    - with [c = 0] and [l = 0], it changes nothing and returns no operation. *)
Theorem backspace_cases (graphemes : str -> list str)
  (Hcat : forall s, concat (graphemes s) = s)
  (Hne : forall s g, In g (graphemes s) -> g <> [])
  (delete_selection : list str -> option (list str * option Edit))
  (lines : list str) (l c : nat) :
  backspace graphemes true delete_selection lines l c = delete_selection lines /\
  (forall line, 0 < c -> (N.of_nat c <= usize_max)%N -> nth_error lines l = Some line ->
     c <= grapheme_len graphemes line ->
     exists l1 g l2, graphemes line = l1 ++ g :: l2 /\ length l1 = c - 1 /\
       backspace graphemes false delete_selection lines l c
       = Some (set_nth l (concat l1 ++ concat l2) lines,
               Some (DeleteText l (c - 1) g))) /\
  (0 < c ->
     (forall line, nth_error lines l = Some line -> grapheme_len graphemes line < c) ->
     backspace graphemes false delete_selection lines l c = Some (lines, None)) /\
  (c = 0 -> 0 < l < length lines ->
     (4 + as_u16 (grapheme_len graphemes (nth (l - 1) lines [])) <= 65535)%N ->
     backspace graphemes false delete_selection lines l c
     = Some (vec_remove l (set_nth (l - 1) (nth (l - 1) lines [] ++ nth l lines []) lines),
             Some (DeleteLine l (nth l lines [])
                     (grapheme_len graphemes (nth (l - 1) lines []))))) /\
  (c = 0 -> 0 < l < length lines ->
     (65535 < 4 + as_u16 (grapheme_len graphemes (nth (l - 1) lines [])))%N ->
     backspace graphemes false delete_selection lines l c = None) /\
  (c = 0 -> 0 < l -> length lines <= l ->
     backspace graphemes false delete_selection lines l c = None) /\
  (c = 0 -> l = 0 ->
     backspace graphemes false delete_selection lines l c = Some (lines, None)).
Proof.
  repeat split.
  - intros line Hc Hc' Hl Hlen.
    unfold grapheme_len in Hlen.
    destruct (nth_error (graphemes line) (c - 1)) as [g|] eqn:Eg;
      [|apply nth_error_None in Eg; lia].
    destruct (nth_error_split _ _ Eg) as (l1 & l2 & Hsplit & Hl1).
    exists l1, g, l2. split; [exact Hsplit|]. split; [exact Hl1|].
    unfold backspace. rewrite Hl.
    destruct (Nat.ltb_spec 0 c); [|lia].
    destruct (Nat.leb_spec c (grapheme_len graphemes line)); [|unfold grapheme_len in *; lia].
    rewrite (remove_grapheme_at_inside graphemes Hcat Hne line _ l1 g l2 Hsplit);
      [reflexivity | rewrite Nat2N.id; exact Hl1 | lia].
  - intros Hc Hshort. unfold backspace.
    destruct (Nat.ltb_spec 0 c); [|lia].
    destruct (nth_error lines l) as [line|] eqn:El; [|reflexivity].
    specialize (Hshort line eq_refl).
    destruct (Nat.leb_spec c (grapheme_len graphemes line)); [lia|reflexivity].
  - intros -> [Hl Hlen] Hu. unfold backspace.
    destruct (Nat.ltb_spec 0 l); [|lia].
    rewrite (nth_error_nth' lines [] (n := l - 1)) by lia.
    rewrite (nth_error_nth' lines [] (n := l)) by lia.
    cbv zeta. unfold u16_add. rewrite (proj2 (N.leb_le _ _) Hu). reflexivity.
  - intros -> [Hl Hlen] Hu. unfold backspace.
    destruct (Nat.ltb_spec 0 l); [|lia].
    rewrite (nth_error_nth' lines [] (n := l - 1)) by lia.
    rewrite (nth_error_nth' lines [] (n := l)) by lia.
    cbv zeta. unfold u16_add. rewrite (proj2 (N.leb_gt _ _) Hu). reflexivity.
  - intros -> Hl Hlen. unfold backspace.
    destruct (Nat.ltb_spec 0 l); [|lia].
    assert (E : nth_error lines l = None) by (apply nth_error_None; exact Hlen).
    rewrite E. destruct (nth_error lines (l - 1)); reflexivity.
  - intros -> ->. reflexivity.
Qed.

(** Witness for [backspace_cases]: joining line 1 onto line 0. *)
Lemma backspace_cases_witness :
  (4 + as_u16 (grapheme_len char_graphemes (nth 0 [s_ "ab"; s_ "cd"] [])) <= 65535)%N /\
  backspace char_graphemes false (fun _ => None) [s_ "ab"; s_ "cd"] 1 0
  = Some ([s_ "abcd"], Some (DeleteLine 1 (s_ "cd") 2)).
Proof.
  assert (Hu : (4 + as_u16 (grapheme_len char_graphemes (nth 0 [s_ "ab"; s_ "cd"] []))
                <= 65535)%N) by (vm_compute; discriminate).
  split; [exact Hu|].
  destruct (backspace_cases char_graphemes char_graphemes_concat char_graphemes_nonempty
              (fun _ => None) [s_ "ab"; s_ "cd"] 1 0) as (_ & _ & _ & H4 & _).
  rewrite H4; [reflexivity | reflexivity | simpl; lia | exact Hu].
Defined.

(** C8 (code bug): at column 0 of a line index past the end of the
    buffer, here line 1 of a one-line buffer, [backspace] indexes
    [lines[1]] unchecked and panics, where the claim has it merge the line
    onto the previous one and return [DeleteLine]. And at column 0 of line
    1 below a line of 65532 clusters, the caret move to
    [MARGIN + 65532 as u16] overflows [u16] and panics. *)
Theorem backspace_merge_panics :
  backspace char_graphemes false (fun _ => None) [s_ "ab"] 1 0 = None /\
  backspace char_graphemes false (fun _ => None) [repeat 97 (N.to_nat 65532); s_ "b"] 1 0
  = None.
Proof. split; [reflexivity|vm_compute; reflexivity]. Qed.

(* ------------------------------------------------------------------ *)
(** ** Further properties of the code *)

(** Vector surgery at a position given by a prefix. *)

Lemma set_nth_mid {A} (p q : list A) (x y : A) :
  set_nth (length p) y (p ++ x :: q) = p ++ y :: q.
Proof. induction p as [|a p IH]; simpl; [reflexivity|]. rewrite IH. reflexivity. Qed.

Lemma vec_remove_mid {A} (p q : list A) (x : A) :
  vec_remove (length p) (p ++ x :: q) = p ++ q.
Proof.
  unfold vec_remove. induction p as [|a p IH]; [reflexivity|].
  cbn [length firstn skipn app]. cbn [app] in IH. rewrite <- IH. reflexivity.
Qed.

Lemma vec_insert_mid {A} (p q : list A) (y : A) :
  vec_insert (length p) y (p ++ q) = Some (p ++ y :: q).
Proof.
  unfold vec_insert. rewrite length_app.
  destruct (Nat.leb_spec (length p) (length p + length q)); [|lia].
  f_equal. clear. induction p as [|a p IH]; [reflexivity|].
  simpl. rewrite IH. reflexivity.
Qed.

Lemma nth_error_mid {A} (p q : list A) (x : A) :
  nth_error (p ++ x :: q) (length p) = Some x.
Proof. rewrite nth_error_app2, Nat.sub_diag by lia. reflexivity. Qed.

Lemma nth_mid {A} (p q : list A) (x d : A) : nth (length p) (p ++ x :: q) d = x.
Proof. rewrite app_nth2, Nat.sub_diag by lia. reflexivity. Qed.

Lemma split_at_index {A} (l : list A) i :
  i < length l -> exists p x q, l = p ++ x :: q /\ length p = i.
Proof.
  intros Hi. destruct (nth_error l i) as [x|] eqn:E; [|apply nth_error_None in E; lia].
  destruct (nth_error_split l i E) as (p & q & -> & Hp). exists p, x, q. auto.
Qed.

Lemma firstn_le_split {A} (l : list A) a b :
  a <= b -> firstn b l = firstn a l ++ firstn (b - a) (skipn a l).
Proof.
  revert a b; induction l as [|z l IH]; intros a b Hab.
  - rewrite skipn_nil, !firstn_nil. reflexivity.
  - destruct a as [|a]; [simpl; rewrite Nat.sub_0_r; reflexivity|]. destruct b as [|b]; [lia|].
    simpl. rewrite (IH a b) by lia. reflexivity.
Qed.

Lemma concat_singletons (gs : list str) :
  (forall g, In g gs -> length g = 1) -> length (concat gs) = length gs.
Proof.
  induction gs as [|g gs IH]; intros H; [reflexivity|].
  simpl. rewrite length_app, IH by (intros; apply H; right; assumption).
  rewrite (H g) by (left; reflexivity). reflexivity.
Qed.

Lemma concat_nonempty_length (gs : list str) :
  (forall g, In g gs -> g <> []) -> length gs <= length (concat gs).
Proof.
  induction gs as [|g gs IH]; intros H; [simpl; lia|].
  simpl. rewrite length_app.
  assert (g <> []) by (apply H; left; reflexivity).
  pose proof (IH (fun g' Hg' => H g' (or_intror Hg'))).
  destruct g; [congruence|]. simpl. lia.
Qed.

Lemma pad_lines_length idx lines : idx < length (pad_lines idx lines).
Proof. unfold pad_lines. rewrite length_app, repeat_length. lia. Qed.

Lemma pad_lines_id idx lines : idx < length lines -> pad_lines idx lines = lines.
Proof.
  intros H. unfold pad_lines. replace (S idx - length lines) with 0 by lia.
  apply app_nil_r.
Qed.

Lemma chars_splice_mid (p m q ins : str) :
  chars_splice (p ++ m ++ q) (length p) ins (length p + length m) = Some (p ++ ins ++ q).
Proof.
  unfold chars_splice, slice_to, slice_from. rewrite !length_app.
  destruct (Nat.leb_spec (length p) (length p + (length m + length q))); [|lia].
  destruct (Nat.leb_spec (length p + length m) (length p + (length m + length q))); [|lia].
  f_equal.
  replace (length p + length m) with (length (p ++ m)) by apply length_app.
  rewrite (app_assoc p m q) at 2.
  rewrite skipn_app, skipn_all, Nat.sub_diag. simpl.
  rewrite firstn_app, Nat.sub_diag, firstn_all. simpl. rewrite !app_nil_r.
  rewrite app_assoc. reflexivity.
Qed.

(** ** Undo and redo *)

(** [EditHistory::undo] followed by [EditHistory::redo] gives back the
    history it started from and the same operation, and so does [redo]
    followed by [undo]. *)
Theorem undo_redo_roundtrip h :
  (forall op h', undo h = (h', Some op) -> redo h' = (h, Some op)) /\
  (forall op h', redo h = (h', Some op) -> undo h' = (h, Some op)).
Proof.
  destruct h as [u r m t g]. unfold undo, redo, vec_pop, with_stacks; simpl.
  split; intros op h' E.
  - destruct (vec_last u) as [o|] eqn:El; [|discriminate].
    inversion E; subst; clear E. simpl.
    rewrite vec_last_app, removelast_app, app_nil_r by discriminate.
    rewrite <- (vec_last_some u op El). reflexivity.
  - destruct (vec_last r) as [o|] eqn:El; [|discriminate].
    inversion E; subst; clear E. simpl.
    rewrite vec_last_app, removelast_app, app_nil_r by discriminate.
    rewrite <- (vec_last_some r op El). reflexivity.
Qed.

Lemma vec_last_tl_app {A} (u : list A) (a : A) :
  u <> [] -> vec_last (tl (u ++ [a])) = Some a.
Proof. destruct u as [|b u]; [congruence|]. intros _. simpl. apply vec_last_app. Qed.

(** [try_merge_operations] panics exactly on two [InsertText] on the same
    line whose guard [*c1 + t1.len()] overflows [usize]. *)
Lemma try_merge_none last op :
  try_merge_operations last op = None <->
  exists l c1 t1 c2 t2, edit last = InsertText l c1 t1 /\ edit op = InsertText l c2 t2 /\
    (usize_max < N.of_nat c1 + N.of_nat (str_len t1))%N.
Proof.
  unfold try_merge_operations. split.
  - destruct (edit last) as [l1 c1 t1|l1 c1 t1| | | |];
      destruct (edit op) as [l2 c2 t2|l2 c2 t2| | | |]; try discriminate;
      try (destruct (_ && _); discriminate).
    destruct (Nat.eqb_spec l1 l2) as [<-|]; [|discriminate].
    unfold usize_add_nat.
    destruct (N.leb_spec (N.of_nat c1 + N.of_nat (str_len t1)) usize_max);
      [destruct (_ =? c2); discriminate|].
    intros _. exists l1, c1, t1, c2, t2. auto.
  - intros (l & c1 & t1 & c2 & t2 & E1 & E2 & Ho). rewrite E1, E2, Nat.eqb_refl.
    unfold usize_add_nat. rewrite (proj2 (N.leb_gt _ _) Ho). reflexivity.
Qed.

Lemma can_group_elapsed h op now :
  can_group_with_last h op now = true ->
  (elapsed_millis (last_edit_time h) now <= grouping_threshold_ms h)%N.
Proof.
  unfold can_group_with_last. destruct (undo_stack h); [discriminate|].
  destruct (N.ltb_spec (grouping_threshold_ms h) (elapsed_millis (last_edit_time h) now));
    intros Hg; [discriminate Hg|assumption].
Qed.

(** [push] with [max_history >= 1] panics exactly when the top of the undo
    stack is an [InsertText] at column [c1] with text [t1], the new
    operation an [InsertText] on the same line, within the grouping window,
    and [c1 + t1.len()] overflows [usize]. When it does not panic, the
    redo stack is empty, the last edit time is the push instant, and the
    top of the undo stack is the new operation itself or the merge of the
    previous top with it. *)
Theorem push_top h op now :
  1 <= max_history h ->
  (push h op now = None <->
   exists last l c1 t1 c2 t2, vec_last (undo_stack h) = Some last /\
     (elapsed_millis (last_edit_time h) now <= grouping_threshold_ms h)%N /\
     edit last = InsertText l c1 t1 /\ edit op = InsertText l c2 t2 /\
     (usize_max < N.of_nat c1 + N.of_nat (str_len t1))%N) /\
  (forall h', push h op now = Some h' ->
   redo_stack h' = [] /\ last_edit_time h' = now /\
   (vec_last (undo_stack h') = Some op \/
    exists last m, vec_last (undo_stack h) = Some last /\
      try_merge_operations last op = Some (Some m) /\
      vec_last (undo_stack h') = Some m)).
Proof.
  intros Hm.
  assert (Hnew : forall h1, max_history h1 = max_history h ->
            redo_stack (push_new h1 op now) = redo_stack h1 /\
            last_edit_time (push_new h1 op now) = now /\
            vec_last (undo_stack (push_new h1 op now)) = Some op).
  { intros h1 E. unfold push_new. simpl. split; [reflexivity|]. split; [reflexivity|].
    destruct (Nat.ltb_spec (max_history h1) (length (undo_stack h1 ++ [op]))).
    - apply vec_last_tl_app. intros Hu. rewrite Hu in *. simpl in *. lia.
    - apply vec_last_app. }
  split; [split|].
  - unfold push. cbv zeta.
    destruct (can_group_with_last _ op now) eqn:Eg; [|discriminate].
    apply can_group_elapsed in Eg.
    simpl. unfold vec_pop. destruct (vec_last (undo_stack h)) as [last|] eqn:El;
      [|discriminate].
    destruct (try_merge_operations last op) as [[m|]|] eqn:Em; try discriminate.
    intros _. apply try_merge_none in Em. destruct Em as (l & c1 & t1 & c2 & t2 & E1 & E2 & Ho).
    exists last, l, c1, t1, c2, t2. repeat split; assumption.
  - intros (last & l & c1 & t1 & c2 & t2 & El & Ht & E1 & E2 & Ho).
    apply (push_panics h op now last El Ht). apply try_merge_none.
    exists l, c1, t1, c2, t2. auto.
  - intros h' E. destruct (push_cases h op now h' E) as [->|(last & m & El & Em & ->)].
    + destruct (Hnew (with_stacks h (undo_stack h) [] (last_edit_time h)) eq_refl)
        as (H1 & H2 & H3). auto.
    + simpl. split; [reflexivity|]. split; [reflexivity|].
      right. exists last, m. split; [exact El|]. split; [exact Em|]. apply vec_last_app.
Qed.

Lemma push_top_witness :
  1 <= max_history (new 500 0%N) /\
  exists h', push (new 500 0%N) (op0 (InsertText 0 0 (s_ "a"))) 7%N = Some h' /\
  vec_last (undo_stack h') = Some (op0 (InsertText 0 0 (s_ "a"))).
Proof.
  assert (H : 1 <= max_history (new 500 0%N)) by (simpl; lia).
  split; [exact H|].
  eexists. split; [reflexivity|].
  destruct (proj2 (push_top (new 500 0%N) (op0 (InsertText 0 0 (s_ "a"))) 7%N H) _ eq_refl)
    as (_ & _ & [E | (last & m & El & _)]); [exact E | discriminate El].
Defined.

(** ** Selections *)

Lemma get_range_cases s :
  (fst (get_range s) = anchor s /\ snd (get_range s) = cursor s) \/
  (fst (get_range s) = cursor s /\ snd (get_range s) = anchor s).
Proof. unfold get_range. destruct (_ || _); simpl; auto. Qed.

(** [get_range] returns the anchor and the cursor, the earlier one first in
    (line, column) order. *)
Theorem get_range_ordered s :
  ((fst (get_range s) = anchor s /\ snd (get_range s) = cursor s) \/
   (fst (get_range s) = cursor s /\ snd (get_range s) = anchor s)) /\
  (line (fst (get_range s)) < line (snd (get_range s)) \/
   (line (fst (get_range s)) = line (snd (get_range s)) /\
    column (fst (get_range s)) <= column (snd (get_range s)))).
Proof.
  unfold get_range.
  destruct (Nat.ltb_spec (line (anchor s)) (line (cursor s))); simpl.
  - split; [left; auto|left; lia].
  - destruct (Nat.eqb_spec (line (anchor s)) (line (cursor s))); simpl.
    + destruct (Nat.ltb_spec (column (anchor s)) (column (cursor s))); simpl.
      * split; [left; auto|right; lia].
      * split; [right; auto|right; lia].
    + split; [right; auto|left; lia].
Qed.

Lemma text_position_eqb_spec p q : text_position_eqb p q = true <-> p = q.
Proof.
  destruct p as [l1 c1], q as [l2 c2]. unfold text_position_eqb. simpl.
  rewrite andb_true_iff, !Nat.eqb_eq. split.
  - intros [-> ->]. reflexivity.
  - intros E. inversion E. auto.
Qed.

(** A selection is active exactly when its range is not empty; a new
    selection is inactive, and moving its cursor makes it active exactly
    when the cursor leaves the anchor. *)
Theorem selection_active_iff s pos new_pos :
  (is_active s = true <-> fst (get_range s) <> snd (get_range s)) /\
  is_active (selection_new pos) = false /\
  (is_active (update_cursor (selection_new pos) new_pos) = true <-> pos <> new_pos).
Proof.
  split; [|split].
  - unfold is_active. rewrite negb_true_iff.
    assert (Hf : forall p q, text_position_eqb p q = false <-> p <> q).
    { intros p q. rewrite <- text_position_eqb_spec.
      destruct (text_position_eqb p q); split; congruence. }
    rewrite Hf.
    destruct (get_range_cases s) as [[E1 E2]|[E1 E2]]; rewrite E1, E2;
      split; intros H Heq; apply H; auto.
  - unfold is_active, selection_new. simpl.
    destruct (text_position_eqb pos pos) eqn:E; [reflexivity|].
    exfalso. assert (pos = pos) as Hp by reflexivity.
    apply text_position_eqb_spec in Hp. congruence.
  - unfold is_active, update_cursor, selection_new. simpl. rewrite negb_true_iff.
    split.
    + intros H Heq. apply text_position_eqb_spec in Heq. congruence.
    + intros H. destruct (text_position_eqb _ _) eqn:E; [|reflexivity].
      apply text_position_eqb_spec in E. congruence.
Qed.

(** ** Grapheme utilities *)

Lemma firstn_mid {A} (p q : list A) (x : A) : firstn (length p) (p ++ x :: q) = p.
Proof. rewrite firstn_app, Nat.sub_diag, firstn_all. apply app_nil_r. Qed.

Lemma skipn_mid {A} (p q : list A) (x : A) : skipn (S (length p)) (p ++ x :: q) = q.
Proof. induction p as [|a p IH]; [reflexivity|]. exact IH. Qed.

Lemma str_len_concat_split (gs : list str) k :
  str_len (concat gs)
  = str_len (concat (firstn k gs)) + str_len (concat (skipn k gs)).
Proof.
  rewrite <- (firstn_skipn k gs) at 1. rewrite concat_app. apply str_len_app.
Qed.

(** [grapheme_to_byte_idx] is monotone in the index, never exceeds the
    byte length of the string, and is the byte length for every index at
    or past the grapheme count. *)
Theorem grapheme_to_byte_idx_clamped (graphemes : str -> list str)
  (Hcat : forall s, concat (graphemes s) = s) s i j :
  ((i <= j)%N -> grapheme_to_byte_idx graphemes s i <= grapheme_to_byte_idx graphemes s j) /\
  grapheme_to_byte_idx graphemes s i <= str_len s /\
  ((N.of_nat (grapheme_len graphemes s) <= i)%N ->
   grapheme_to_byte_idx graphemes s i = str_len s).
Proof.
  rewrite !(grapheme_to_byte_idx_prefix graphemes Hcat). split; [|split].
  - intros Hij.
    rewrite (firstn_le_split (graphemes s) (N.to_nat i) (N.to_nat j)) by lia.
    rewrite concat_app, str_len_app. lia.
  - pose proof (str_len_concat_split (graphemes s) (N.to_nat i)) as E.
    rewrite Hcat in E. lia.
  - intros Hi. unfold grapheme_len in Hi.
    rewrite firstn_all2 by lia. rewrite Hcat. reflexivity.
Qed.

Lemma grapheme_to_byte_idx_clamped_witness :
  (0 <= 1)%N /\ (N.of_nat (grapheme_len char_graphemes (s_ "ab")) <= 5)%N /\
  grapheme_to_byte_idx char_graphemes (s_ "ab") 5 = str_len (s_ "ab").
Proof.
  assert (H1 : (0 <= 1)%N) by lia.
  assert (H2 : (N.of_nat (grapheme_len char_graphemes (s_ "ab")) <= 5)%N)
    by (vm_compute; discriminate).
  split; [exact H1|]. split; [exact H2|].
  exact (proj2 (proj2 (grapheme_to_byte_idx_clamped char_graphemes
                          char_graphemes_concat (s_ "ab") 5 5)) H2).
Defined.

Lemma split_insert_parts (graphemes : str -> list str)
  (Hcat : forall s, concat (graphemes s) = s) s i text :
  exists a b,
    split_at_grapheme graphemes s i = Some (a, b) /\ a ++ b = s /\
    a = concat (firstn (N.to_nat i) (graphemes s)) /\
    insert_at_grapheme graphemes s i text = Some (a ++ text ++ b).
Proof.
  exists (concat (firstn (N.to_nat i) (graphemes s))),
         (concat (skipn (N.to_nat i) (graphemes s))).
  pose proof (split_at_grapheme_spec graphemes Hcat s i) as E.
  split; [exact E|]. split.
  - rewrite <- concat_app, firstn_skipn. apply Hcat.
  - split; [reflexivity|].
    unfold insert_at_grapheme. unfold split_at_grapheme in E. rewrite E. reflexivity.
Qed.

(** [split_at_grapheme] and [insert_at_grapheme] never panic, whatever the
    index: the string splits after its first [i] clusters (all of them when
    [i] is past the end), the two halves rejoin to the string, and the
    insertion puts the text between them. *)
Theorem split_insert_at_grapheme (graphemes : str -> list str)
  (Hcat : forall s, concat (graphemes s) = s) s i text :
  exists a b,
    split_at_grapheme graphemes s i = Some (a, b) /\ a ++ b = s /\
    a = concat (firstn (N.to_nat i) (graphemes s)) /\
    insert_at_grapheme graphemes s i text = Some (a ++ text ++ b).
Proof. exact (split_insert_parts graphemes Hcat s i text). Qed.

Lemma split_insert_at_grapheme_witness :
  insert_at_grapheme char_graphemes (s_ "ad") 1 (s_ "bc") = Some (s_ "abcd").
Proof.
  destruct (split_insert_at_grapheme char_graphemes char_graphemes_concat (s_ "ad") 1 (s_ "bc"))
    as (a & b & Es & _ & _ & Ei).
  rewrite Ei. vm_compute in Es. injection Es as <- <-. reflexivity.
Defined.

(** [remove_grapheme_at] at an index below the grapheme count (and below
    [usize::MAX]) removes that cluster and returns it, which is also what
    [grapheme_at] returns; at an index at or past the count it changes
    nothing and returns [None]. *)
Theorem remove_grapheme_at_spec (graphemes : str -> list str)
  (Hcat : forall s, concat (graphemes s) = s)
  (Hne : forall s g, In g (graphemes s) -> g <> []) s i :
  (i + 1 <= usize_max)%N ->
  (N.to_nat i < grapheme_len graphemes s ->
   exists g, grapheme_at graphemes s i = Some g /\
     remove_grapheme_at graphemes s i
     = Some (concat (firstn (N.to_nat i) (graphemes s))
               ++ concat (skipn (S (N.to_nat i)) (graphemes s)), Some g)) /\
  (grapheme_len graphemes s <= N.to_nat i ->
   grapheme_at graphemes s i = None /\ remove_grapheme_at graphemes s i = Some (s, None)).
Proof.
  intros Hi. split.
  - intros Hlt. unfold grapheme_len in Hlt.
    destruct (split_at_index (graphemes s) (N.to_nat i) Hlt) as (p & x & q & Es & Hp).
    exists x. split.
    + unfold grapheme_at. rewrite nth_N_nth_error, Es, <- Hp. apply nth_error_mid.
    + rewrite (remove_grapheme_at_inside graphemes Hcat Hne s i p x q Es Hp Hi).
      rewrite Es, <- Hp, firstn_mid, skipn_mid. reflexivity.
  - intros Hge. split.
    + unfold grapheme_at. rewrite nth_N_nth_error. apply nth_error_None. exact Hge.
    + unfold remove_grapheme_at, usize_add.
      destruct (N.leb_spec (i + 1) usize_max); [|lia].
      rewrite (grapheme_to_byte_idx_prefix graphemes Hcat s i).
      unfold grapheme_len in Hge. rewrite firstn_all2 by exact Hge. rewrite Hcat.
      rewrite Nat.ltb_irrefl. reflexivity.
Qed.

Lemma remove_grapheme_at_spec_witness :
  (1 + 1 <= usize_max)%N /\ N.to_nat 1 < grapheme_len char_graphemes (s_ "abc") /\
  remove_grapheme_at char_graphemes (s_ "abc") 1 = Some (s_ "ac", Some (s_ "b")).
Proof.
  assert (H1 : (1 + 1 <= usize_max)%N) by (unfold usize_max; lia).
  assert (H2 : N.to_nat 1 < grapheme_len char_graphemes (s_ "abc")) by (vm_compute; lia).
  split; [exact H1|]. split; [exact H2|].
  destruct (proj1 (remove_grapheme_at_spec char_graphemes char_graphemes_concat
                     char_graphemes_nonempty (s_ "abc") 1 H1) H2) as (g & Eg & Er).
  rewrite Er. vm_compute in Eg. injection Eg as <-. reflexivity.
Defined.

(** [grapheme_slice] from 0 to [k] followed by [grapheme_slice] from [k] to
    any end at or past the grapheme count gives back the string, for every
    [k]; a slice whose end is not after its start is empty. *)
Theorem grapheme_slice_split (graphemes : str -> list str)
  (Hcat : forall s, concat (graphemes s) = s) s k n :
  ((N.of_nat (grapheme_len graphemes s) <= n)%N ->
   grapheme_slice graphemes s 0 k ++ grapheme_slice graphemes s k n = s) /\
  ((n <= k)%N -> grapheme_slice graphemes s k n = []).
Proof.
  unfold grapheme_slice. rewrite !take_N_firstn, !skip_N_skipn. split.
  - intros Hn. unfold grapheme_len in Hn.
    rewrite N.sub_0_r. simpl (N.to_nat 0). rewrite skipn_O.
    rewrite (firstn_all2 (n := N.to_nat (n - k))) by (rewrite length_skipn; lia).
    rewrite <- concat_app, firstn_skipn. apply Hcat.
  - intros Hnk. replace (N.to_nat (n - k)) with 0 by lia. reflexivity.
Qed.

Lemma grapheme_slice_split_witness :
  grapheme_slice char_graphemes (s_ "abc") 0 1 ++ grapheme_slice char_graphemes (s_ "abc") 1 3
  = s_ "abc".
Proof.
  apply (proj1 (grapheme_slice_split char_graphemes char_graphemes_concat (s_ "abc") 1 3)).
  vm_compute. discriminate.
Defined.

(** ** Keyboard actions *)

Lemma str_len_singleton c : c < 128 -> str_len [c] = 1.
Proof. intros H. simpl. unfold utf8_len. destruct (Nat.ltb_spec c 128); lia. Qed.

Lemma in_firstn_l {A} n (l : list A) x : In x (firstn n l) -> In x l.
Proof. intros H. rewrite <- (firstn_skipn n l). apply in_or_app. left. exact H. Qed.

Lemma app_snoc {A} (p q : list A) (x : A) : p ++ x :: q = (p ++ [x]) ++ q.
Proof. rewrite <- app_assoc. reflexivity. Qed.

Lemma set_nth_same {A} (v : list A) i x : nth_error v i = Some x -> set_nth i x v = v.
Proof.
  revert i; induction v as [|a v IH]; intros [|i] E; simpl in *; try discriminate.
  - injection E as ->. reflexivity.
  - rewrite IH by exact E. reflexivity.
Qed.

Lemma pad_lines_split idx lines :
  exists p q, pad_lines idx lines = p ++ nth idx (pad_lines idx lines) [] :: q /\
              length p = idx.
Proof.
  destruct (split_at_index _ idx (pad_lines_length idx lines)) as (p & x & q & E & Hp).
  exists p, q. split; [|exact Hp]. rewrite E, <- Hp, nth_mid. reflexivity.
Qed.

Lemma insert_newline_eq (graphemes : str -> list str)
  (Hcat : forall s, concat (graphemes s) = s) lines idx c :
  exists p q before rem,
    pad_lines idx lines = p ++ (before ++ rem) :: q /\ length p = idx /\
    before = concat (firstn (Nat.min c (grapheme_len graphemes
                                          (nth idx (pad_lines idx lines) [])))
                       (graphemes (nth idx (pad_lines idx lines) []))) /\
    insert_newline graphemes false lines idx c
    = Some (p ++ before :: rem :: q, Some (InsertLine idx rem)).
Proof.
  destruct (pad_lines_split idx lines) as (p & q & E & Hp).
  set (cur := nth idx (pad_lines idx lines) []) in *.
  set (k := Nat.min c (grapheme_len graphemes cur)).
  exists p, q, (concat (firstn k (graphemes cur))), (concat (skipn k (graphemes cur))).
  split; [rewrite <- concat_app, firstn_skipn, Hcat; exact E|].
  split; [exact Hp|]. split; [reflexivity|].
  unfold insert_newline. fold cur. fold k.
  rewrite (split_at_grapheme_spec graphemes Hcat), Nat2N.id.
  rewrite E, <- Hp, set_nth_mid.
  replace (length p + 1) with (length (p ++ [concat (firstn k (graphemes cur))]))
    by (rewrite length_app; reflexivity).
  rewrite (app_snoc p q (concat (firstn k (graphemes cur)))).
  rewrite vec_insert_mid, <- app_assoc. reflexivity.
Qed.

(** [insert_newline] off the last screen row never panics: it pads the
    buffer up to the caret's line, splits that line after its first
    [min(char_pos, grapheme count)] clusters, keeps the first half in place
    and inserts the rest as the next line, recording [InsertLine] with that
    rest; on the last screen row it changes nothing and records nothing. *)
Theorem insert_newline_effect (graphemes : str -> list str)
  (Hcat : forall s, concat (graphemes s) = s) lines idx c :
  insert_newline graphemes true lines idx c = Some (lines, None) /\
  exists p q before rem,
    pad_lines idx lines = p ++ (before ++ rem) :: q /\ length p = idx /\
    before = concat (firstn (Nat.min c (grapheme_len graphemes
                                          (nth idx (pad_lines idx lines) [])))
                       (graphemes (nth idx (pad_lines idx lines) []))) /\
    insert_newline graphemes false lines idx c
    = Some (p ++ before :: rem :: q, Some (InsertLine idx rem)).
Proof. split; [reflexivity|]. apply insert_newline_eq. exact Hcat. Qed.

Lemma insert_newline_effect_witness :
  insert_newline char_graphemes false [s_ "abcd"] 0 2
  = Some ([s_ "ab"; s_ "cd"], Some (InsertLine 0 (s_ "cd"))).
Proof.
  destruct (proj2 (insert_newline_effect char_graphemes char_graphemes_concat
                     [s_ "abcd"] 0 2)) as (p & q & before & rem & E & Hp & Hb & Ei).
  rewrite Ei. destruct p; [|discriminate]. vm_compute in E, Hb.
  injection E as Erem Eq. subst. injection Erem as <-. reflexivity.
Defined.

(** Undoing an [insert_newline] gives back the buffer it split (padded up to
    the caret's line). The caret's line index is below [usize::MAX], as
    the index of a line of a [Vec] that also holds the next line is, so
    [InsertLine]'s reverse does not overflow [line + 1]. *)
Theorem insert_newline_undo (graphemes : str -> list str)
  (Hcat : forall s, concat (graphemes s) = s) lines idx c lines' e :
  (N.of_nat idx < usize_max)%N ->
  insert_newline graphemes false lines idx c = Some (lines', Some e) ->
  reverse e lines' = Some (pad_lines idx lines).
Proof.
  intros Hidx.
  destruct (insert_newline_eq graphemes Hcat lines idx c)
    as (p & q & before & rem & E & Hp & _ & Ei).
  rewrite Ei. intros H. injection H as <- <-.
  rewrite E. unfold reverse. rewrite (usize_add_nat_succ idx Hidx). cbv beta iota.
  rewrite (proj2 (Nat.ltb_lt (idx + 1) _)) by (rewrite length_app; simpl; lia).
  replace (idx + 1) with (length (p ++ [before])) by (rewrite length_app; simpl; lia).
  rewrite (app_snoc p (rem :: q) before).
  rewrite vec_remove_mid, <- app_assoc. simpl.
  rewrite <- Hp, nth_error_mid, set_nth_mid. reflexivity.
Qed.

Lemma insert_newline_undo_witness :
  reverse (InsertLine 0 (s_ "cd")) [s_ "ab"; s_ "cd"] = Some (pad_lines 0 [s_ "abcd"]).
Proof.
  apply (insert_newline_undo char_graphemes char_graphemes_concat [s_ "abcd"] 0 2).
  - vm_compute. reflexivity.
  - vm_compute. reflexivity.
Defined.

(** Typing a character inside a line, when the caret's line is made of
    single-character clusters and the character is ASCII: undoing the
    recorded [InsertText] gives back the buffer (padded up to the caret's
    line), and redoing it on that buffer gives the typed result again. *)
Theorem type_character_undo_redo (graphemes : str -> list str)
  (Hcat : forall s, concat (graphemes s) = s) lines idx c ch lines' e :
  ch < 128 ->
  (forall g, In g (graphemes (nth idx (pad_lines idx lines) [])) -> length g = 1) ->
  type_character_in_line graphemes false ch lines idx c = Some (lines', Some e) ->
  reverse e lines' = Some (pad_lines idx lines) /\
  apply e (pad_lines idx lines) = Some lines'.
Proof.
  intros Hch H1.
  destruct (pad_lines_split idx lines) as (p & q & E & Hp).
  set (cur := nth idx (pad_lines idx lines) []) in *.
  set (k := Nat.min c (grapheme_len graphemes cur)).
  destruct (split_insert_parts graphemes Hcat cur (N.of_nat k) [ch])
    as (a & b & _ & Eab & Ea & Ei).
  rewrite Nat2N.id in Ea.
  assert (Hk : length a = k).
  { rewrite Ea, concat_singletons.
    - rewrite length_firstn. unfold k, grapheme_len. lia.
    - intros g Hg. apply H1. apply (in_firstn_l _ _ _ Hg). }
  unfold type_character_in_line. fold cur. fold k. rewrite Ei.
  intros H. injection H as <- <-.
  rewrite E, <- Hp, set_nth_mid. split.
  - unfold reverse, update_line. rewrite nth_error_mid.
    rewrite str_len_singleton by exact Hch. rewrite <- Hk.
    replace (length a + 1) with (length a + length [ch]) by reflexivity.
    change (a ++ ch :: b) with (a ++ [ch] ++ b).
    rewrite chars_splice_mid. simpl. rewrite set_nth_mid, <- Eab. reflexivity.
  - unfold apply, update_line. rewrite nth_error_mid, <- Eab, <- Hk.
    pose proof (chars_splice_mid a [] b [ch]) as Hs. simpl in Hs.
    rewrite Nat.add_0_r in Hs. rewrite Hs, set_nth_mid. reflexivity.
Qed.

Lemma type_character_undo_redo_witness :
  reverse (InsertText 0 1 [nat_of_ascii "x"]) [s_ "axb"] = Some (pad_lines 0 [s_ "ab"]) /\
  apply (InsertText 0 1 [nat_of_ascii "x"]) (pad_lines 0 [s_ "ab"]) = Some [s_ "axb"].
Proof.
  apply (type_character_undo_redo char_graphemes char_graphemes_concat [s_ "ab"] 0 1
           (nat_of_ascii "x")).
  - vm_compute. lia.
  - intros g Hg. vm_compute in Hg.
    destruct Hg as [<-|[<-|[]]]; reflexivity.
  - vm_compute. reflexivity.
Defined.

Lemma delete_char_join_eq (graphemes : str -> list str) del p x y q c :
  grapheme_len graphemes x <= c ->
  delete_char graphemes false del (p ++ x :: y :: q) (length p) c
  = Some (p ++ (x ++ y) :: q, Some (JoinLines (length p) (grapheme_len graphemes x))).
Proof.
  intros Hc. unfold delete_char.
  rewrite (proj2 (Nat.leb_gt _ _)) by (rewrite length_app; simpl; lia).
  rewrite nth_mid.
  rewrite (proj2 (Nat.ltb_ge _ _)) by exact Hc.
  rewrite (proj2 (Nat.ltb_lt _ _)) by (rewrite length_app; simpl; lia).
  replace (length p + 1) with (length (p ++ [x])) by (rewrite length_app; reflexivity).
  rewrite (app_snoc p (y :: q) x), nth_mid, vec_remove_mid, <- app_assoc. simpl.
  rewrite nth_mid, set_nth_mid. reflexivity.
Qed.

Lemma remove_cluster_undo (graphemes : str -> list str)
  (Hcat : forall s, concat (graphemes s) = s) p q cur l1 g l2 :
  graphemes cur = l1 ++ g :: l2 ->
  (forall g', In g' (graphemes cur) -> length g' = 1) ->
  reverse (DeleteText (length p) (length l1) g) (p ++ (concat l1 ++ concat l2) :: q)
  = Some (p ++ cur :: q).
Proof.
  intros Es H1.
  assert (Hl1 : length (concat l1) = length l1).
  { apply concat_singletons. intros g' Hg'. apply H1. rewrite Es.
    apply in_or_app. left. exact Hg'. }
  unfold reverse, update_line. rewrite nth_error_mid, <- Hl1.
  pose proof (chars_splice_mid (concat l1) [] (concat l2) g) as Hs.
  simpl in Hs. rewrite Nat.add_0_r in Hs. rewrite Hs, set_nth_mid.
  rewrite <- (Hcat cur), Es, concat_app. reflexivity.
Qed.

(** [delete_char] with no active selection: past the last line it changes
    nothing; below the grapheme count of the line it removes the cluster at
    the caret and records [DeleteText] with it; at or past the end of a
    line that has a next line it appends the next line and records
    [JoinLines] with the old grapheme count of the line; at or past the end
    of the last line it changes nothing. With an active selection it
    returns what [delete_selection] returns. *)
Theorem delete_char_cases (graphemes : str -> list str)
  (Hcat : forall s, concat (graphemes s) = s)
  (Hne : forall s g, In g (graphemes s) -> g <> [])
  (del : list str -> option (list str * option Edit)) (lines : list str) (l c : nat) :
  delete_char graphemes true del lines l c = del lines /\
  (length lines <= l -> delete_char graphemes false del lines l c = Some (lines, None)) /\
  (forall cur, nth_error lines l = Some cur -> c < grapheme_len graphemes cur ->
     (N.of_nat c < usize_max)%N ->
     exists l1 g l2, graphemes cur = l1 ++ g :: l2 /\ length l1 = c /\
       delete_char graphemes false del lines l c
       = Some (set_nth l (concat l1 ++ concat l2) lines, Some (DeleteText l c g))) /\
  (forall p x y q, lines = p ++ x :: y :: q -> length p = l ->
     grapheme_len graphemes x <= c ->
     delete_char graphemes false del lines l c
     = Some (p ++ (x ++ y) :: q, Some (JoinLines l (grapheme_len graphemes x)))) /\
  (forall p x, lines = p ++ [x] -> length p = l -> grapheme_len graphemes x <= c ->
     delete_char graphemes false del lines l c = Some (lines, None)).
Proof.
  split; [reflexivity|]. split; [|split; [|split]].
  - intros H. unfold delete_char. rewrite (proj2 (Nat.leb_le _ _) H). reflexivity.
  - intros cur Hl Hc Hu.
    assert (Hlen : l < length lines) by (apply nth_error_Some; congruence).
    unfold grapheme_len in Hc.
    destruct (split_at_index (graphemes cur) c Hc) as (l1 & g & l2 & Es & Hl1).
    exists l1, g, l2. split; [exact Es|]. split; [exact Hl1|].
    unfold delete_char.
    rewrite (proj2 (Nat.leb_gt _ _)) by exact Hlen.
    rewrite (nth_error_nth _ _ _ Hl).
    rewrite (proj2 (Nat.ltb_lt _ _)) by (unfold grapheme_len; exact Hc).
    rewrite (remove_grapheme_at_inside graphemes Hcat Hne cur (N.of_nat c) l1 g l2 Es);
      [reflexivity | rewrite Nat2N.id; exact Hl1 | lia].
  - intros p x y q -> <-. apply delete_char_join_eq.
  - intros p x -> <- Hc. unfold delete_char.
    rewrite (proj2 (Nat.leb_gt _ _)) by (rewrite length_app; simpl; lia).
    rewrite <- (app_nil_r (p ++ [x])) at 3. rewrite <- app_assoc. simpl.
    rewrite nth_mid, (proj2 (Nat.ltb_ge _ _)) by exact Hc.
    rewrite (proj2 (Nat.ltb_ge _ _)) by (rewrite length_app; simpl; lia).
    reflexivity.
Qed.

Lemma delete_char_cases_witness :
  delete_char char_graphemes false (fun _ => None) [s_ "ab"; s_ "cd"] 0 2
  = Some ([s_ "abcd"], Some (JoinLines 0 2)).
Proof.
  destruct (delete_char_cases char_graphemes char_graphemes_concat char_graphemes_nonempty
              (fun _ => None) [s_ "ab"; s_ "cd"] 0 2) as (_ & _ & _ & H4 & _).
  apply (H4 [] (s_ "ab") (s_ "cd") []); [reflexivity | reflexivity | vm_compute; lia].
Defined.

(** A [delete_char] that joins a line with the next one is redone exactly
    by [apply] of the recorded [JoinLines]; it is undone exactly by
    [reverse] when the joined line has as many clusters as bytes (the
    recorded grapheme count is used as a byte offset). The joined line's
    index is below [usize::MAX], as the index of a line of a [Vec] that
    also holds the next line is, so [JoinLines]'s apply does not overflow
    [line + 1]. *)
Theorem delete_char_join_undo_redo (graphemes : str -> list str) del p x y q c lines' e :
  (N.of_nat (length p) < usize_max)%N ->
  grapheme_len graphemes x <= c ->
  delete_char graphemes false del (p ++ x :: y :: q) (length p) c = Some (lines', Some e) ->
  apply e (p ++ x :: y :: q) = Some lines' /\
  (grapheme_len graphemes x = str_len x -> reverse e lines' = Some (p ++ x :: y :: q)).
Proof.
  intros Hidx Hc. rewrite (delete_char_join_eq graphemes del p x y q c Hc).
  intros H. injection H as <- <-. split.
  - unfold apply. rewrite (usize_add_nat_succ _ Hidx). cbv beta iota.
    rewrite (proj2 (Nat.ltb_lt _ _)) by (rewrite length_app; simpl; lia).
    replace (length p + 1) with (length (p ++ [x])) by (rewrite length_app; reflexivity).
    rewrite (app_snoc p (y :: q) x), nth_mid, vec_remove_mid, <- app_assoc. simpl.
    rewrite nth_error_mid, set_nth_mid. reflexivity.
  - intros Hb. unfold reverse. rewrite nth_error_mid, Hb, split_at_byte_app, set_nth_mid.
    replace (length p + 1) with (length (p ++ [x])) by (rewrite length_app; reflexivity).
    rewrite (app_snoc p q x), vec_insert_mid, <- app_assoc. reflexivity.
Qed.

Lemma delete_char_join_undo_redo_witness :
  apply (JoinLines 0 2) [s_ "ab"; s_ "cd"] = Some [s_ "abcd"] /\
  reverse (JoinLines 0 2) [s_ "abcd"] = Some [s_ "ab"; s_ "cd"].
Proof.
  destruct (delete_char_join_undo_redo char_graphemes (fun _ => None) [] (s_ "ab") (s_ "cd") []
              2 [s_ "abcd"] (JoinLines 0 2)) as [H1 H2];
    [vm_compute; reflexivity | vm_compute; lia | vm_compute; reflexivity |].
  split; [exact H1|]. apply H2. reflexivity.
Defined.

(** Undoing the [DeleteText] that [backspace] or [delete_char] records for
    a single grapheme gives back the buffer, when the clusters of the line
    are single characters. *)
Theorem delete_grapheme_undo (graphemes : str -> list str)
  (Hcat : forall s, concat (graphemes s) = s)
  (Hne : forall s g, In g (graphemes s) -> g <> [])
  (del : list str -> option (list str * option Edit)) lines l c cur :
  (N.of_nat c < usize_max)%N ->
  nth_error lines l = Some cur ->
  (forall g, In g (graphemes cur) -> length g = 1) ->
  (forall lines' col t,
     backspace graphemes false del lines l c = Some (lines', Some (DeleteText l col t)) ->
     reverse (DeleteText l col t) lines' = Some lines) /\
  (forall lines' col t,
     delete_char graphemes false del lines l c = Some (lines', Some (DeleteText l col t)) ->
     reverse (DeleteText l col t) lines' = Some lines).
Proof.
  intros Hu Hl H1.
  assert (Hlen : l < length lines) by (apply nth_error_Some; congruence).
  destruct (split_at_index lines l Hlen) as (p & x & q & El & Hp).
  assert (Ex : x = cur) by (rewrite El, <- Hp, nth_error_mid in Hl; congruence).
  subst x. split.
  - intros lines' col t. unfold backspace.
    destruct (Nat.ltb_spec 0 c).
    + rewrite Hl. destruct (Nat.leb_spec c (grapheme_len graphemes cur));
        [|intros Hr; injection Hr; discriminate].
      unfold grapheme_len in *.
      destruct (split_at_index (graphemes cur) (c - 1)) as (l1 & g & l2 & Es & Hl1); [lia|].
      rewrite (remove_grapheme_at_inside graphemes Hcat Hne cur (N.of_nat (c - 1)) l1 g l2 Es)
        by (rewrite ?Nat2N.id; lia).
      intros Hr. injection Hr as <- <- <-.
      rewrite El, <- Hp, set_nth_mid, <- Hl1.
      apply (remove_cluster_undo graphemes Hcat p q cur l1 g l2 Es H1).
    + destruct (0 <? l), (nth_error lines (l - 1)), (nth_error lines l);
        cbv zeta; try destruct (u16_add _ _);
        intros Hr; try discriminate; injection Hr; intros; discriminate.
  - intros lines' col t. unfold delete_char.
    rewrite (proj2 (Nat.leb_gt _ _)) by exact Hlen.
    rewrite (nth_error_nth _ _ _ Hl).
    destruct (Nat.ltb_spec c (grapheme_len graphemes cur)).
    + unfold grapheme_len in *.
      destruct (split_at_index (graphemes cur) c) as (l1 & g & l2 & Es & Hl1); [lia|].
      rewrite (remove_grapheme_at_inside graphemes Hcat Hne cur (N.of_nat c) l1 g l2 Es)
        by (rewrite ?Nat2N.id; lia).
      intros Hr. injection Hr as <- <- <-.
      rewrite El, <- Hp, set_nth_mid, <- Hl1.
      apply (remove_cluster_undo graphemes Hcat p q cur l1 g l2 Es H1).
    + destruct (l + 1 <? length lines); intros Hr; injection Hr; discriminate.
Qed.

Lemma delete_grapheme_undo_witness :
  reverse (DeleteText 0 1 (s_ "b")) [s_ "ac"] = Some [s_ "abc"].
Proof.
  assert (Hu : (N.of_nat 2 < usize_max)%N) by (unfold usize_max; lia).
  assert (H1 : forall g, In g (char_graphemes (s_ "abc")) -> length g = 1).
  { intros g Hg. vm_compute in Hg. destruct Hg as [<-|[<-|[<-|[]]]]; reflexivity. }
  apply (proj1 (delete_grapheme_undo char_graphemes char_graphemes_concat
                  char_graphemes_nonempty (fun _ => None) [s_ "abc"] 0 2 (s_ "abc")
                  Hu eq_refl H1)).
  vm_compute. reflexivity.
Defined.

(** ** Clipboard actions *)




Lemma nth_error_set_nth_same {A} (v : list A) i x y :
  nth_error v i = Some y -> nth_error (set_nth i x v) i = Some x.
Proof.
  revert i; induction v as [|a v IH]; intros [|i]; simpl; try discriminate; auto.
Qed.

Lemma set_nth_set_nth {A} (v : list A) i x y : set_nth i y (set_nth i x v) = set_nth i y v.
Proof.
  revert i; induction v as [|a v IH]; intros [|i]; simpl; auto. rewrite IH. reflexivity.
Qed.

Lemma concat_firstn_singletons (gs : list str) k :
  (forall g, In g gs -> length g = 1) -> concat (firstn k gs) = firstn k (concat gs).
Proof.
  revert k; induction gs as [|g gs IH]; intros k H.
  - destruct k; reflexivity.
  - assert (Hg : length g = 1) by (apply H; left; reflexivity).
    destruct g as [|c [|c' g]]; simpl in Hg; try lia.
    destruct k; simpl; [reflexivity|]. f_equal. apply IH. intros g' Hg'. apply H. right. exact Hg'.
Qed.

Lemma concat_skipn_singletons (gs : list str) k :
  (forall g, In g gs -> length g = 1) -> concat (skipn k gs) = skipn k (concat gs).
Proof.
  revert k; induction gs as [|g gs IH]; intros k H.
  - destruct k; reflexivity.
  - assert (Hg : length g = 1) by (apply H; left; reflexivity).
    destruct g as [|c [|c' g]]; simpl in Hg; try lia.
    destruct k; simpl; [reflexivity|]. apply IH. intros g' Hg'. apply H. right. exact Hg'.
Qed.






Lemma skipn_app_exact {A} (l1 l2 : list A) k : skipn (length l1 + k) (l1 ++ l2) = skipn k l2.
Proof. induction l1 as [|a l1 IH]; [reflexivity|]. exact IH. Qed.

Lemma firstn_app_exact {A} (l1 l2 : list A) : firstn (length l1) (l1 ++ l2) = l1.
Proof. induction l1 as [|a l1 IH]; [reflexivity|]. simpl. rewrite IH. reflexivity. Qed.

Lemma remove_times_range (l : list str) i k :
  i + k <= length l -> remove_times k i l = firstn i l ++ skipn (i + k) l.
Proof.
  revert l; induction k as [|k IH]; intros l Hk.
  - rewrite Nat.add_0_r, firstn_skipn. reflexivity.
  - simpl. destruct (split_at_index l i) as (p & x & q & -> & <-); [lia|].
    rewrite (proj2 (Nat.ltb_lt _ _)) by lia.
    rewrite vec_remove_mid, IH by (rewrite length_app in *; simpl in Hk; lia).
    replace (length p + S k) with (length p + (1 + k)) by lia.
    rewrite !skipn_app_exact, !firstn_app_exact. reflexivity.
Qed.

Lemma grapheme_slice_nat (graphemes : str -> list str) s a b :
  grapheme_slice graphemes s (N.of_nat a) (N.of_nat b)
  = concat (firstn (b - a) (skipn a (graphemes s))).
Proof.
  unfold grapheme_slice. rewrite take_N_firstn, skip_N_skipn, N2Nat.inj_sub, !Nat2N.id.
  reflexivity.
Qed.

Lemma concat_firstn_skipn_all (gs : list str) a :
  concat (firstn (length gs - a) (skipn a gs)) = concat (skipn a gs).
Proof. rewrite firstn_all2 by (rewrite length_skipn; lia). reflexivity. Qed.

Lemma extract_lines_mid (graphemes : str -> list str) lines st en pre mid rest :
  lines = pre ++ mid ++ rest -> line st < length pre ->
  length pre + length mid <= line en ->
  map (extract_line graphemes lines st en) (seq (length pre) (length mid))
  = map (fun l => l ++ [newline]) mid.
Proof.
  revert pre; induction mid as [|m mid IH]; intros pre El H1 H2; [reflexivity|].
  simpl. f_equal.
  - unfold extract_line. rewrite El. simpl app. rewrite nth_error_mid.
    destruct (Nat.eqb_spec (length pre) (line st)); [lia|].
    destruct (Nat.eqb_spec (length pre) (line en)); [simpl in H2; lia|]. reflexivity.
  - specialize (IH (pre ++ [m])). rewrite length_app, Nat.add_1_r in IH. simpl in IH.
    apply IH; [rewrite El, <- app_assoc; reflexivity | lia | simpl in H2; lia].
Qed.

Lemma delete_selection_multi_eq (graphemes : str -> list str) s st en lines p x mid y q :
  is_active s = true -> get_range s = (st, en) ->
  lines = p ++ x :: mid ++ y :: q -> length p = line st ->
  line en = length p + S (length mid) ->
  let a := Nat.min (column st) (length (graphemes x)) in
  let b := Nat.min (column en) (length (graphemes y)) in
  delete_selection graphemes (Some s) lines
  = Some (p ++ (concat (firstn a (graphemes x)) ++ concat (skipn b (graphemes y))) :: q,
          Some (ReplaceRange (line st) (column st) (line en) (column en)
                  (concat (skipn a (graphemes x)) ++ [newline]
                   ++ concat (map (fun l => l ++ [newline]) mid)
                   ++ concat (firstn b (graphemes y))) [])).
Proof.
  intros Ha Hr El Hp Hm a b.
  assert (Hne : (line st =? line en) = false) by (apply Nat.eqb_neq; lia).
  assert (El' : lines = (p ++ x :: mid) ++ y :: q)
    by (rewrite El, <- app_assoc; reflexivity).
  assert (Hlen' : length (p ++ x :: mid) = line en)
    by (rewrite length_app; simpl; lia).
  assert (Nx : nth_error lines (line st) = Some x) by (rewrite El, <- Hp; apply nth_error_mid).
  assert (Ny : nth_error lines (line en) = Some y) by (rewrite El', <- Hlen'; apply nth_error_mid).
  unfold delete_selection. rewrite Ha, Hr. simpl negb. cbv iota.
  unfold extract_text, delete_range. rewrite Hne, Nx, Ny.
  unfold grapheme_len. change 0%N with (N.of_nat 0). rewrite !grapheme_slice_nat.
  rewrite Nat.sub_0_r, !skipn_O, !concat_firstn_skipn_all. fold a b.
  unfold range_incl_len. rewrite (proj2 (Nat.leb_le _ _)) by lia.
  rewrite remove_times_range
    by (rewrite El, length_app; simpl; rewrite length_app; simpl; lia).
  replace (line st + (line en - line st + 1)) with (length (p ++ x :: mid) + 1)
    by (rewrite length_app; simpl; lia).
  assert (Hskip : skipn (length (p ++ x :: mid) + 1) lines = q)
    by (rewrite El', skipn_app_exact; reflexivity).
  assert (Hfirst : firstn (line st) lines = p) by (rewrite El, <- Hp; apply firstn_app_exact).
  rewrite Hskip, Hfirst, <- Hp, vec_insert_mid.
  assert (Eseq : seq (length p) (line en - length p + 1)
                 = length p :: seq (S (length p)) (length mid) ++ [line en]).
  { replace (line en - length p + 1) with (S (length mid + 1)) by lia. simpl. f_equal.
    rewrite seq_app. simpl. do 3 f_equal. lia. }
  rewrite Eseq. cbn [map concat]. rewrite map_app, concat_app. cbn [map concat].
  pose proof (extract_lines_mid graphemes lines st en (p ++ [x]) mid (y :: q)) as Emid.
  rewrite length_app, Nat.add_1_r in Emid.
  rewrite Emid by (try (rewrite El, <- app_assoc; reflexivity); lia).
  unfold extract_line at 1. rewrite Hp, Nx, Nat.eqb_refl.
  unfold extract_line. rewrite Ny.
  rewrite (proj2 (Nat.eqb_neq (line en) (line st))) by lia. rewrite Nat.eqb_refl.
  unfold grapheme_len. change 0%N with (N.of_nat 0). rewrite !grapheme_slice_nat.
  rewrite Nat.sub_0_r, !skipn_O, !concat_firstn_skipn_all. fold a b.
  rewrite !app_nil_r, <- !app_assoc. reflexivity.
Qed.



(** Undo and redo of the deletion of a selection spanning lines: [reverse]
    of the recorded multi-line [ReplaceRange] leaves the buffer as it is,
    so undo does not bring the deleted lines back; [apply] on the original
    buffer removes the lines of the range and inserts one empty line, so
    redo also drops the kept head and tail. *)
Theorem delete_selection_multi_line_undo_redo (graphemes : str -> list str)
  s st en lines p x mid y q lines' e :
  is_active s = true -> get_range s = (st, en) ->
  lines = p ++ x :: mid ++ y :: q -> length p = line st ->
  line en = length p + S (length mid) ->
  delete_selection graphemes (Some s) lines = Some (lines', Some e) ->
  reverse e lines' = Some lines' /\ apply e lines = Some (p ++ [] :: q).
Proof.
  intros Ha Hr El Hp Hm Hd.
  rewrite (delete_selection_multi_eq graphemes s st en lines p x mid y q Ha Hr El Hp Hm) in Hd.
  injection Hd as <- <-.
  assert (Hne : (line st =? line en) = false) by (apply Nat.eqb_neq; lia).
  unfold reverse, apply. rewrite Hne. split; [reflexivity|].
  unfold range_incl_len. rewrite (proj2 (Nat.leb_le _ _)) by lia.
  rewrite remove_times_range
    by (rewrite El, length_app; simpl; rewrite length_app; simpl; lia).
  replace (line st + (line en - line st + 1)) with (length (p ++ x :: mid) + 1)
    by (rewrite length_app; simpl; lia).
  rewrite El at 2. rewrite app_comm_cons, app_assoc, skipn_app_exact. simpl skipn.
  rewrite El, <- Hp, firstn_mid. simpl split_on. simpl insert_all.
  rewrite vec_insert_mid. reflexivity.
Qed.

Lemma delete_selection_multi_line_undo_redo_witness :
  apply (ReplaceRange 0 1 2 1 (map nat_of_ascii ["b"; "c"; "010"; "d"; "e"; "010"; "f"]%char) [])
    [s_ "abc"; s_ "de"; s_ "fgh"; s_ "ij"] = Some [[]; s_ "ij"].
Proof.
  exact (proj2 (delete_selection_multi_line_undo_redo char_graphemes
    (mkSelection (mkTextPosition 2 1) (mkTextPosition 0 1))
    (mkTextPosition 0 1) (mkTextPosition 2 1) [s_ "abc"; s_ "de"; s_ "fgh"; s_ "ij"]
    [] (s_ "abc") [s_ "de"] (s_ "fgh") [s_ "ij"] [s_ "agh"; s_ "ij"]
    (ReplaceRange 0 1 2 1 (map nat_of_ascii ["b"; "c"; "010"; "d"; "e"; "010"; "f"]%char) [])
    eq_refl eq_refl eq_refl eq_refl eq_refl eq_refl)).
Defined.

Lemma skipn_app_len {A} (l1 l2 : list A) : skipn (length l1) (l1 ++ l2) = l2.
Proof. induction l1 as [|a l1 IH]; [reflexivity|]. exact IH. Qed.

Lemma insert_or_push_le {A} i (x : A) v :
  i <= length v -> insert_or_push i x v = firstn i v ++ x :: skipn i v.
Proof.
  unfold insert_or_push. destruct (Nat.ltb_spec i (length v)); [reflexivity|].
  intros Hi. replace i with (length v) by lia. rewrite firstn_all, skipn_all. reflexivity.
Qed.

Lemma paste_rest_cons i p pieces after v :
  pieces <> [] ->
  paste_rest i (p :: pieces) after v = paste_rest (S i) pieces after (insert_or_push i p v).
Proof. destruct pieces; [congruence|reflexivity]. Qed.

Lemma paste_rest_spec ps lst after pre post :
  paste_rest (length pre) (ps ++ [lst]) after (pre ++ post)
  = pre ++ ps ++ (lst ++ after) :: post.
Proof.
  revert pre; induction ps as [|p ps IH]; intros pre.
  - simpl. rewrite insert_or_push_le by (rewrite length_app; lia).
    rewrite firstn_app_exact, skipn_app_len. reflexivity.
  - cbn [app]. rewrite paste_rest_cons by (destruct ps; discriminate).
    rewrite insert_or_push_le by (rewrite length_app; lia).
    rewrite firstn_app_exact, skipn_app_len.
    replace (S (length pre)) with (length (pre ++ [p])) by (rewrite length_app; simpl; lia).
    rewrite (app_snoc pre post p), IH, <- app_assoc. reflexivity.
Qed.

Lemma split_on_length sep s : length (split_on sep s) = S (count_occ Nat.eq_dec s sep).
Proof.
  induction s as [|c s IH]; [reflexivity|]. simpl.
  destruct (Nat.eqb_spec c sep) as [->|Hc].
  - destruct (Nat.eq_dec sep sep); [|congruence]. simpl. rewrite IH. reflexivity.
  - destruct (Nat.eq_dec c sep); [congruence|].
    destruct (split_on sep s); simpl in *; lia.
Qed.

Lemma existsb_newline text :
  existsb (Nat.eqb newline) text = true <-> In newline text.
Proof.
  rewrite existsb_exists. split.
  - intros (ch & Hin & E). apply Nat.eqb_eq in E. subst. exact Hin.
  - intros Hin. exists newline. split; [exact Hin|apply Nat.eqb_refl].
Qed.

Lemma str_len_ge_length t : length t <= str_len t.
Proof. induction t as [|c t IH]; simpl; [lia|]. pose proof (utf8_len_pos c). lia. Qed.

Lemma str_len_ascii t : Forall (fun ch => ch < 128) t -> str_len t = length t.
Proof.
  induction 1 as [|c t Hc _ IH]; [reflexivity|]. simpl. rewrite IH.
  unfold utf8_len. rewrite (proj2 (Nat.ltb_lt _ _) Hc). reflexivity.
Qed.

Lemma paste_multi_eq (graphemes : str -> list str)
  (Hcat : forall s, concat (graphemes s) = s) lines idx c text first mid lst :
  split_on newline text = first :: mid ++ [lst] ->
  let L1 := pad_lines idx lines in
  let cur := nth idx L1 [] in
  let k := Nat.min (c - 4) (grapheme_len graphemes cur) in
  insert_text_at_cursor graphemes lines idx c text
  = if (as_u16 (grapheme_len graphemes lst) + 4 <=? 65535)%N
    then Some (firstn idx L1 ++ (concat (firstn k (graphemes cur)) ++ first)
                 :: mid ++ (lst ++ concat (skipn k (graphemes cur))) :: skipn (S idx) L1,
               Some (ReplaceRange idx k idx k [] text))
    else None.
Proof.
  intros Hs L1 cur k. subst L1 cur k.
  assert (Hin : In newline text).
  { apply (count_occ_In Nat.eq_dec). pose proof (split_on_length newline text) as E.
    rewrite Hs in E. simpl in E. rewrite length_app in E. simpl in E. lia. }
  assert (Hlst : last (first :: mid ++ [lst]) [] = lst)
    by (rewrite app_comm_cons; apply last_last).
  unfold insert_text_at_cursor. rewrite (proj2 (existsb_newline text) Hin), Hs.
  cbv beta iota zeta. rewrite Hlst.
  rewrite (split_at_grapheme_spec graphemes Hcat), Nat2N.id. cbv beta iota.
  unfold u16_add. destruct (_ <=? 65535)%N; [|reflexivity].
  destruct (pad_lines_split idx lines) as (p & q & E & Hp).
  set (cur := nth idx (pad_lines idx lines) []) in *.
  set (k := Nat.min (c - 4) (grapheme_len graphemes cur)).
  rewrite E, <- Hp, set_nth_mid, firstn_app_exact, skipn_mid.
  rewrite (app_snoc p q).
  replace (S (length p)) with (length (p ++ [concat (firstn k (graphemes cur)) ++ first]))
    by (rewrite length_app; simpl; lia).
  rewrite paste_rest_spec, <- app_assoc. reflexivity.
Qed.

(** A paste of text with newlines ([split('\n')] gives [first], then
    [mid], then [lst]), with the caret at screen column [c] ([pos.x]),
    splits the caret line at grapheme column [c - 4] (saturating, then
    clamped to its grapheme count): the head followed by [first], then the
    lines of [mid], then [lst] followed by the tail, after padding the
    buffer up to the caret line. It records a [ReplaceRange] from the caret
    to the caret with the pasted text as new text, and undoing that edit
    leaves the buffer as it is: the pasted lines stay. When [MARGIN] plus
    the grapheme count of [lst] (as [u16]) overflows [u16], the caret move
    after the change panics. *)
Theorem paste_multi_line (graphemes : str -> list str)
  (Hcat : forall s, concat (graphemes s) = s)
  (Hne : forall s g, In g (graphemes s) -> g <> []) lines idx c text first mid lst :
  split_on newline text = first :: mid ++ [lst] ->
  let L1 := pad_lines idx lines in
  let cur := nth idx L1 [] in
  let k := Nat.min (c - 4) (grapheme_len graphemes cur) in
  let lines' := firstn idx L1 ++ (concat (firstn k (graphemes cur)) ++ first)
                  :: mid ++ (lst ++ concat (skipn k (graphemes cur))) :: skipn (S idx) L1 in
  insert_text_at_cursor graphemes lines idx c text
  = (if (as_u16 (grapheme_len graphemes lst) + 4 <=? 65535)%N
     then Some (lines', Some (ReplaceRange idx k idx k [] text))
     else None) /\
  reverse (ReplaceRange idx k idx k [] text) lines' = Some lines'.
Proof.
  intros Hs L1 cur k lines'.
  split; [exact (paste_multi_eq graphemes Hcat lines idx c text first mid lst Hs)|].
  subst lines'. subst L1.
  destruct (pad_lines_split idx lines) as (p & q & E & Hp). fold cur in E.
  rewrite E, <- Hp, firstn_app_exact, skipn_mid.
  unfold reverse. rewrite Nat.eqb_refl. unfold update_line. rewrite nth_error_mid.
  assert (Hk : k <= length (concat (firstn k (graphemes cur)))).
  { etransitivity; [|apply concat_nonempty_length].
    - rewrite length_firstn. unfold k, grapheme_len. lia.
    - intros g Hg. apply (Hne cur g). exact (in_firstn_l _ _ _ Hg). }
  unfold chars_splice, slice_to, slice_from. rewrite length_app.
  rewrite (proj2 (Nat.leb_le k _)) by lia. simpl.
  rewrite firstn_skipn, set_nth_mid. reflexivity.
Qed.

Lemma paste_multi_line_witness :
  insert_text_at_cursor char_graphemes [s_ "abcd"] 0 6
    (map nat_of_ascii ["X"; "010"; "Y"]%char)
  = Some ([s_ "abX"; s_ "Ycd"],
          Some (ReplaceRange 0 2 0 2 [] (map nat_of_ascii ["X"; "010"; "Y"]%char))).
Proof.
  pose proof (proj1 (paste_multi_line char_graphemes char_graphemes_concat
    char_graphemes_nonempty [s_ "abcd"] 0 6 (map nat_of_ascii ["X"; "010"; "Y"]%char)
    (s_ "X") [] (s_ "Y") eq_refl)) as H.
  cbv zeta in H. rewrite H. vm_compute. reflexivity.
Defined.

Lemma insert_at_grapheme_split (graphemes : str -> list str) s i t :
  insert_at_grapheme graphemes s i t
  = match split_at_grapheme graphemes s i with
    | Some (a, b) => Some (a ++ t ++ b)
    | None => None
    end.
Proof. reflexivity. Qed.

Lemma paste_single_eq (graphemes : str -> list str)
  (Hcat : forall s, concat (graphemes s) = s) lines idx c text :
  ~ In newline text ->
  let L1 := pad_lines idx lines in
  let cur := nth idx L1 [] in
  let k := Nat.min (c - 4) (grapheme_len graphemes cur) in
  insert_text_at_cursor graphemes lines idx c text
  = if (N.of_nat c + as_u16 (grapheme_len graphemes text) <=? 65535)%N
    then Some (set_nth idx (concat (firstn k (graphemes cur)) ++ text
                              ++ concat (skipn k (graphemes cur))) L1,
               Some (InsertText idx k text))
    else None.
Proof.
  intros Hn L1 cur k. subst L1 cur k.
  unfold insert_text_at_cursor.
  destruct (existsb (Nat.eqb newline) text) eqn:Ex;
    [apply existsb_newline in Ex; contradiction|].
  cbv beta iota zeta.
  rewrite insert_at_grapheme_split, (split_at_grapheme_spec graphemes Hcat), Nat2N.id.
  cbv beta iota. unfold u16_add. destruct (_ <=? 65535)%N; reflexivity.
Qed.

(** A paste of text without a newline, with the caret at screen column
    [c] ([pos.x]), inserts it into the caret line at grapheme column
    [c - 4] (saturating, then clamped to its grapheme count) and records
    [InsertText], after padding the buffer up to the caret line; when
    [pos.x] plus the grapheme count of the text (as [u16]) overflows
    [u16], the caret move after the change panics. When the clusters of
    the caret line are single characters, redo inserts the text again, and
    undo removes as many characters as the text has UTF-8 bytes: for ASCII
    text it gives the buffer back, for other text it also removes
    characters after the pasted text, and panics when the line is too
    short for that. *)
Theorem paste_single_line_undo (graphemes : str -> list str)
  (Hcat : forall s, concat (graphemes s) = s) lines idx c text :
  ~ In newline text ->
  let L1 := pad_lines idx lines in
  let cur := nth idx L1 [] in
  let k := Nat.min (c - 4) (grapheme_len graphemes cur) in
  insert_text_at_cursor graphemes lines idx c text
  = (if (N.of_nat c + as_u16 (grapheme_len graphemes text) <=? 65535)%N
     then Some (set_nth idx (concat (firstn k (graphemes cur)) ++ text
                               ++ concat (skipn k (graphemes cur))) L1,
                Some (InsertText idx k text))
     else None) /\
  ((forall g, In g (graphemes cur) -> length g = 1) ->
   forall lines' e,
   insert_text_at_cursor graphemes lines idx c text = Some (lines', Some e) ->
   e = InsertText idx k text /\
   lines' = set_nth idx (firstn k cur ++ text ++ skipn k cur) L1 /\
   apply e L1 = Some lines' /\
   reverse e lines'
   = (if k + str_len text <=? length cur + length text
      then Some (set_nth idx (firstn k cur ++ skipn (str_len text - length text)
                                                  (skipn k cur)) L1)
      else None) /\
   (Forall (fun ch => ch < 128) text -> reverse e lines' = Some L1)).
Proof.
  intros Hn L1 cur k.
  assert (Heq : insert_text_at_cursor graphemes lines idx c text
    = if (N.of_nat c + as_u16 (grapheme_len graphemes text) <=? 65535)%N
      then Some (set_nth idx (concat (firstn k (graphemes cur)) ++ text
                                ++ concat (skipn k (graphemes cur))) L1,
                 Some (InsertText idx k text))
      else None) by exact (paste_single_eq graphemes Hcat lines idx c text Hn).
  split; [exact Heq|].
  intros H1 lines' e. rewrite Heq.
  destruct (_ <=? 65535)%N; [|discriminate].
  intros Hr. injection Hr as <- <-.
  subst L1.
  destruct (pad_lines_split idx lines) as (p & q & E & Hp). fold cur in E.
  pose proof (concat_singletons (graphemes cur) H1) as Hlen. rewrite Hcat in Hlen.
  assert (Ef : concat (firstn k (graphemes cur)) = firstn k cur)
    by (rewrite concat_firstn_singletons by exact H1; rewrite Hcat; reflexivity).
  assert (Es : concat (skipn k (graphemes cur)) = skipn k cur)
    by (rewrite concat_skipn_singletons by exact H1; rewrite Hcat; reflexivity).
  assert (Hk : k <= length cur) by (unfold k, grapheme_len; lia).
  assert (Hfk : length (firstn k cur) = k) by (rewrite length_firstn; lia).
  rewrite Ef, Es.
  split; [reflexivity|]. split; [reflexivity|].
  rewrite E, <- Hp, set_nth_mid.
  assert (Hrev : reverse (InsertText (length p) k text)
                   (p ++ (firstn k cur ++ text ++ skipn k cur) :: q)
                 = (if k + str_len text <=? length cur + length text
                    then Some (p ++ (firstn k cur ++ skipn (str_len text - length text)
                                                       (skipn k cur)) :: q)
                    else None)).
  { unfold reverse, update_line. rewrite nth_error_mid.
    unfold chars_splice, slice_to, slice_from.
    rewrite !length_app, length_skipn, Hfk.
    rewrite (proj2 (Nat.leb_le k _)) by lia.
    assert (F1 : forall X, firstn k (firstn k cur ++ X) = firstn k cur)
      by (intros X; rewrite <- Hfk at 1; apply firstn_app_exact).
    assert (F2 : forall n X, skipn (k + n) (firstn k cur ++ X) = skipn n X)
      by (intros n X; rewrite <- Hfk at 1; apply skipn_app_exact).
    rewrite F1, F2.
    destruct (Nat.leb_spec (k + str_len text) (k + (length text + (length cur - k)))),
             (Nat.leb_spec (k + str_len text) (length cur + length text)); try lia.
    - pose proof (str_len_ge_length text).
      replace (str_len text) with (length text + (str_len text - length text)) at 1 by lia.
      rewrite skipn_app_exact. simpl. rewrite set_nth_mid. reflexivity.
    - reflexivity. }
  split; [|split].
  - unfold apply, update_line. rewrite nth_error_mid.
    pose proof (chars_splice_mid (firstn k cur) [] (skipn k cur) text) as Hs.
    simpl in Hs. rewrite Nat.add_0_r, Hfk, firstn_skipn in Hs.
    rewrite Hs, set_nth_mid. reflexivity.
  - rewrite set_nth_mid. exact Hrev.
  - intros Ha. etransitivity; [exact Hrev|]. rewrite (str_len_ascii text Ha), Nat.sub_diag.
    rewrite (proj2 (Nat.leb_le _ _)) by lia. simpl.
    rewrite firstn_skipn. reflexivity.
Qed.

Lemma paste_single_line_undo_witness :
  insert_text_at_cursor char_graphemes [s_ "ab"] 0 4 [233]
  = Some ([[233] ++ s_ "ab"], Some (InsertText 0 0 [233])) /\
  reverse (InsertText 0 0 [233]) [[233] ++ s_ "ab"] = Some [s_ "b"].
Proof.
  assert (Hn : ~ In newline [233]) by (simpl; intros [H|[]]; discriminate).
  assert (H1 : forall g, In g (char_graphemes (nth 0 (pad_lines 0 [s_ "ab"]) [])) -> length g = 1).
  { intros g Hg. vm_compute in Hg. destruct Hg as [<-|[<-|[]]]; reflexivity. }
  pose proof (paste_single_line_undo char_graphemes char_graphemes_concat [s_ "ab"] 0 4 [233] Hn)
    as P.
  cbv zeta in P. destruct P as [Pe P].
  assert (Hi : insert_text_at_cursor char_graphemes [s_ "ab"] 0 4 [233]
               = Some ([[233] ++ s_ "ab"], Some (InsertText 0 0 [233])))
    by (rewrite Pe; vm_compute; reflexivity).
  split; [exact Hi|].
  destruct (P H1 [[233] ++ s_ "ab"] (InsertText 0 0 [233]) Hi) as (_ & _ & _ & Hr & _).
  rewrite Hr. vm_compute. reflexivity.
Defined.

(** ** Tabs *)

Lemma str_eqb_spec a b : str_eqb a b = true <-> a = b.
Proof. unfold str_eqb. destruct (list_eq_dec Nat.eq_dec a b); split; congruence. Qed.

Lemma find_open_some path ts i j :
  find_open path ts i = Some j -> i <= j /\ j < i + length ts /\
  exists t, nth_error ts (j - i) = Some t /\ filename t = Some path.
Proof.
  revert i; induction ts as [|t ts IH]; intros i; simpl; [discriminate|].
  destruct (filename t) as [f|] eqn:Ef.
  - destruct (str_eqb f path) eqn:Eq.
    + intros H. injection H as <-. apply str_eqb_spec in Eq. subst f.
      rewrite Nat.sub_diag. split; [lia|]. split; [lia|]. exists t. auto.
    + intros H. destruct (IH (S i) H) as (H1 & H2 & t' & Ht' & Hf).
      split; [lia|]. split; [lia|]. exists t'.
      replace (j - i) with (S (j - S i)) by lia. auto.
  - intros H. destruct (IH (S i) H) as (H1 & H2 & t' & Ht' & Hf).
    split; [lia|]. split; [lia|]. exists t'.
    replace (j - i) with (S (j - S i)) by lia. auto.
Qed.

Lemma find_open_first path ts i j :
  find_open path ts i = Some j ->
  forall k t', k < j - i -> nth_error ts k = Some t' -> filename t' <> Some path.
Proof.
  revert i; induction ts as [|t ts IH]; intros i H; [discriminate|].
  destruct (find_open_some path (t :: ts) i j H) as [Hij _].
  simpl in H. intros k t' Hk Ht'.
  destruct k as [|k].
  - simpl in Ht'. injection Ht' as <-.
    destruct (filename t) as [f|]; [|discriminate].
    destruct (str_eqb f path) eqn:Eq.
    + injection H as Hi. lia.
    + intros E. injection E as ->.
      rewrite (proj2 (str_eqb_spec path path) eq_refl) in Eq. discriminate.
  - simpl in Ht'.
    assert (H' : find_open path ts (S i) = Some j).
    { destruct (filename t) as [f|]; [|exact H].
      destruct (str_eqb f path); [injection H as Hi; lia|exact H]. }
    apply (IH (S i) H' k t'); [lia|exact Ht'].
Qed.

Lemma find_open_none path ts i :
  find_open path ts i = None <-> forall t, In t ts -> filename t <> Some path.
Proof.
  revert i; induction ts as [|t ts IH]; intros i; simpl.
  - split; [intros _ t []|reflexivity].
  - destruct (filename t) as [f|] eqn:Ef.
    + destruct (str_eqb f path) eqn:Eq.
      * apply str_eqb_spec in Eq. subst f. split; [discriminate|].
        intros H. exfalso. exact (H t (or_introl eq_refl) Ef).
      * rewrite IH. split.
        -- intros H t' [<-|Ht']; [|exact (H t' Ht')].
           rewrite Ef. intros E. injection E as ->.
           rewrite (proj2 (str_eqb_spec path path) eq_refl) in Eq. discriminate.
        -- intros H t' Ht'. exact (H t' (or_intror Ht')).
    + rewrite IH. split.
      * intros H t' [<-|Ht']; [rewrite Ef; discriminate|exact (H t' Ht')].
      * intros H t' Ht'. exact (H t' (or_intror Ht')).
Qed.

Lemma from_session_inv from_file now session :
  active_tab_index (from_session from_file now session)
  < length (tabs (from_session from_file now session)) /\
  max_tabs (from_session from_file now session) = 10.
Proof.
  unfold from_session. simpl.
  destruct (map (tab_of_info from_file now) (session_tabs session)) as [|t ts];
    simpl; split; lia.
Qed.

(** Every tab manager the program builds has an active index inside its
    list of tabs, so [current_tab] never panics, and a capacity of 10;
    this holds from [TabManager::new] (with or without a saved session)
    through [new_tab], [switch_to_tab] and every successful
    [open_file_in_new_tab]. *)
Theorem tabs_invariant from_file now m :
  tabs_reachable from_file now m ->
  active_tab_index m < length (tabs m) /\ max_tabs m = 10 /\ current_tab m <> None.
Proof.
  intros Hr. cut (active_tab_index m < length (tabs m) /\ max_tabs m = 10).
  { intros [H1 H2]. split; [exact H1|]. split; [exact H2|].
    unfold current_tab. apply nth_error_Some. exact H1. }
  induction Hr as [session b f t|m _ [IH1 IH2]|m n _ [IH1 IH2]|m path _ [IH1 IH2] Hok].
  - destruct session as [s|]; [apply from_session_inv|]. simpl. lia.
  - simpl. split; [lia|exact IH2].
  - unfold switch_to_tab.
    destruct ((n <? 1) || (max_tabs m <? n)); [auto|].
    destruct (Nat.leb_spec (length (tabs m)) (n - 1)); [auto|]. simpl. split; [lia|exact IH2].
  - unfold open_file_in_new_tab in *.
    destruct (find_open path (tabs m) 0) as [i|] eqn:Ef.
    + destruct (find_open_some path (tabs m) 0 i Ef) as (_ & Hi & _).
      simpl. split; [lia|exact IH2].
    + destruct (from_file path) as [t|]; [simpl; split; [lia|exact IH2]|].
      simpl in Hok. congruence.
Qed.

Lemma tabs_invariant_witness :
  active_tab_index (fst (new_tab 0%N (tab_manager_new (fun _ => None) 0%N None default None None)))
  < length (tabs (fst (new_tab 0%N (tab_manager_new (fun _ => None) 0%N None default None None)))).
Proof.
  exact (proj1 (tabs_invariant (fun _ => None) 0%N _
    (tr_new_tab _ _ _ (tr_new (fun _ => None) 0%N None default None None)))).
Defined.

(** [open_file_in_new_tab] on a path no tab has as filename, when the
    file cannot be read, returns the error after it has already dropped the
    last tab if the manager was full, and leaves the active index as it
    was: when the last tab was the active one, the index is then past the
    end, and [current_tab] panics. *)
Theorem open_file_failure from_file m path :
  (forall t, In t (tabs m) -> filename t <> Some path) ->
  from_file path = None ->
  max_tabs m <= length (tabs m) ->
  snd (open_file_in_new_tab from_file m path) = None /\
  tabs (fst (open_file_in_new_tab from_file m path)) = removelast (tabs m) /\
  active_tab_index (fst (open_file_in_new_tab from_file m path)) = active_tab_index m /\
  (active_tab_index m = length (tabs m) - 1 ->
   current_tab (fst (open_file_in_new_tab from_file m path)) = None).
Proof.
  intros Hno Hf Hfull. unfold open_file_in_new_tab.
  rewrite (proj2 (find_open_none path (tabs m) 0) Hno), Hf.
  rewrite (proj2 (Nat.leb_le _ _) Hfull). simpl.
  split; [reflexivity|]. split; [reflexivity|]. split; [reflexivity|].
  intros Ha. unfold current_tab. simpl. apply nth_error_None.
  destruct (tabs m) as [|t ts] eqn:Et using rev_ind; [simpl; lia|].
  rewrite removelast_last, length_app in *. simpl in *. lia.
Qed.

Lemma open_file_failure_witness :
  current_tab (fst (open_file_in_new_tab (fun _ => None)
    (mkTabManager (repeat (default_tab 0%N) 10) 9 10) (s_ "a.txt"))) = None.
Proof.
  refine (proj2 (proj2 (proj2 (open_file_failure (fun _ => None)
    (mkTabManager (repeat (default_tab 0%N) 10) 9 10) (s_ "a.txt") _ eq_refl _))) eq_refl).
  - intros t Ht. simpl in Ht.
    repeat (destruct Ht as [<-|Ht]; [discriminate|]). destruct Ht.
  - simpl. lia.
Defined.

(** [open_file_in_new_tab] on a path some tab already has as filename
    makes the first such tab active (no tab before it has that filename)
    and changes no tab. On a path no tab
    has, when the file is read, the new tab goes in front, after dropping
    the last tab if the manager was full, and becomes the current tab. *)
Theorem open_file_cases from_file m path :
  ((exists t, In t (tabs m) /\ filename t = Some path) ->
   exists i, open_file_in_new_tab from_file m path
             = (mkTabManager (tabs m) i (max_tabs m), Some i) /\
   (exists t, current_tab (mkTabManager (tabs m) i (max_tabs m)) = Some t /\
              filename t = Some path) /\
   (forall j t', j < i -> nth_error (tabs m) j = Some t' -> filename t' <> Some path)) /\
  (forall t, (forall t', In t' (tabs m) -> filename t' <> Some path) ->
   from_file path = Some t ->
   open_file_in_new_tab from_file m path
   = (mkTabManager (t :: (if max_tabs m <=? length (tabs m)
                          then removelast (tabs m) else tabs m)) 0 (max_tabs m), Some 0) /\
   current_tab (fst (open_file_in_new_tab from_file m path)) = Some t).
Proof.
  split.
  - intros (t & Ht & Hf). unfold open_file_in_new_tab.
    destruct (find_open path (tabs m) 0) as [i|] eqn:E.
    + exists i. split; [reflexivity|].
      destruct (find_open_some path (tabs m) 0 i E) as (_ & _ & t' & Ht' & Hf').
      rewrite Nat.sub_0_r in Ht'. split; [exists t'; auto|].
      intros j t'' Hj Ht''. apply (find_open_first path (tabs m) 0 i E j t''); [lia|exact Ht''].
    + exfalso. exact (proj1 (find_open_none path (tabs m) 0) E t Ht Hf).
  - intros t Hno Hf. unfold open_file_in_new_tab.
    rewrite (proj2 (find_open_none path (tabs m) 0) Hno), Hf.
    split; reflexivity.
Qed.

Lemma open_file_cases_witness :
  open_file_in_new_tab (fun _ => Some (tab_new default (Some (s_ "b")) None 0%N))
    (mkTabManager [tab_new default (Some (s_ "a")) None 0%N] 0 10) (s_ "b")
  = (mkTabManager [tab_new default (Some (s_ "b")) None 0%N;
                   tab_new default (Some (s_ "a")) None 0%N] 0 10, Some 0).
Proof.
  refine (proj1 (proj2 (open_file_cases
    (fun _ => Some (tab_new default (Some (s_ "b")) None 0%N))
    (mkTabManager [tab_new default (Some (s_ "a")) None 0%N] 0 10) (s_ "b"))
    (tab_new default (Some (s_ "b")) None 0%N) _ eq_refl)).
  intros t' [<-|[]]. discriminate.
Defined.



(** The session [save_session] writes, read back by [from_session], gives
    as many tabs with the same active index (when it is inside the list).
    A tab without a file name comes back as a new empty tab; a tab whose
    file is read again gets back its file type, scroll offset and cursor,
    with the contents, the name and the history of the freshly read tab. *)
Theorem session_roundtrip from_file now m :
  active_tab_index m < length (tabs m) ->
  let m' := from_session from_file now (save_session m) in
  length (tabs m') = length (tabs m) /\
  active_tab_index m' = active_tab_index m /\
  (forall i t, nth_error (tabs m) i = Some t -> filename t = None ->
     nth_error (tabs m') i = Some (default_tab now)) /\
  (forall i t f t', nth_error (tabs m) i = Some t -> filename t = Some f ->
     from_file f = Some t' ->
     nth_error (tabs m') i
     = Some (mkTab (buffer t') (filename t') (filetype t) (scroll_offset t) (cursor_pos t)
                   (has_unsaved_changes t') (edit_history t'))).
Proof.
  intros Ha m'. subst m'. unfold from_session, save_session. simpl.
  rewrite map_map.
  destruct (tabs m) as [|t0 ts] eqn:Et; [simpl in Ha; lia|].
  remember (t0 :: ts) as l eqn:El.
  assert (Hne : map (fun tb => tab_of_info from_file now
                   (mkTabInfo (filename tb) (filetype tb) (scroll_offset tb)
                      (y (cursor_pos tb)) (x (cursor_pos tb)))) l <> [])
    by (rewrite El; discriminate).
  destruct (map _ l) as [|u us] eqn:Em; [congruence|].
  rewrite <- Em. simpl. rewrite length_map.
  split; [reflexivity|]. split; [lia|]. split.
  - intros i t Hi Hf. rewrite nth_error_map, Hi. simpl.
    unfold tab_of_info. simpl. rewrite Hf. reflexivity.
  - intros i t f t' Hi Hf Ht'. rewrite nth_error_map, Hi. simpl.
    unfold tab_of_info. simpl. rewrite Hf, Ht'. destruct (cursor_pos t). reflexivity.
Qed.

Lemma session_roundtrip_witness :
  active_tab_index (from_session (fun _ => None) 0%N
    (save_session (mkTabManager [default_tab 0%N; default_tab 0%N] 1 10))) = 1.
Proof.
  refine (proj1 (proj2 (session_roundtrip (fun _ => None) 0%N
    (mkTabManager [default_tab 0%N; default_tab 0%N] 1 10) _))).
  simpl. lia.
Defined.

(** ** Loading a buffer *)

Lemma lines_go_line cur w s :
  ~ In newline w -> lines_go cur (w ++ newline :: s) = strip_cr (rev cur ++ w) :: lines_go [] s.
Proof.
  revert cur; induction w as [|c w IH]; intros cur Hw.
  - simpl. rewrite app_nil_r. reflexivity.
  - simpl. destruct (Nat.eqb_spec c newline) as [->|Hc]; [exfalso; apply Hw; left; reflexivity|].
    rewrite IH by (intros H; apply Hw; right; exact H). simpl. rewrite <- app_assoc. reflexivity.
Qed.

Lemma lines_go_last cur w :
  ~ In newline w -> rev cur ++ w <> [] -> lines_go cur w = [rev cur ++ w].
Proof.
  revert cur; induction w as [|c w IH]; intros cur Hw Hne.
  - rewrite app_nil_r in *. destruct cur; [simpl in Hne; congruence|reflexivity].
  - simpl. destruct (Nat.eqb_spec c newline) as [->|Hc]; [exfalso; apply Hw; left; reflexivity|].
    rewrite IH by (try (intros H; apply Hw; right; exact H); simpl; destruct (rev cur); discriminate).
    simpl. rewrite <- app_assoc. reflexivity.
Qed.

Lemma str_lines_join ls term w :
  (forall l, In l ls -> ~ In newline l) ->
  (term = [carriage_return] \/
   (term = [] /\ forall l, In l ls -> vec_last l <> Some carriage_return)) ->
  ~ In newline w ->
  str_lines (concat (map (fun l => l ++ term ++ [newline]) ls) ++ w)
  = ls ++ (match w with [] => [] | _ => [w] end).
Proof.
  intros Hl Ht Hw. unfold str_lines. induction ls as [|l ls IH].
  - simpl. destruct w as [|c w]; [reflexivity|].
    apply (lines_go_last [] (c :: w) Hw). discriminate.
  - simpl. rewrite <- !app_assoc, app_assoc. simpl.
    rewrite lines_go_line.
    + rewrite IH.
      * f_equal. simpl. destruct Ht as [->|[-> Hc]].
        -- unfold strip_cr. rewrite vec_last_app, Nat.eqb_refl, removelast_last. reflexivity.
        -- rewrite app_nil_r. unfold strip_cr.
           specialize (Hc l (or_introl eq_refl)).
           destruct (vec_last l) as [c|]; [|reflexivity].
           destruct (Nat.eqb_spec c carriage_return); [congruence|reflexivity].
      * intros l' Hl'. apply Hl. right. exact Hl'.
      * destruct Ht as [->|[-> Hc]]; [left; reflexivity|right].
        split; [reflexivity|]. intros l' Hl'. apply Hc. right. exact Hl'.
    + intros H. apply in_app_or in H. destruct H as [H|H].
      * exact (Hl l (or_introl eq_refl) H).
      * destruct Ht as [->|[-> _]]; [destruct H as [H|[]]; discriminate H|destruct H].
Qed.

(** [Buffer::from_string] on a text made of lines ended by LF, or all by
    CRLF, and then a last line without a line ending, gives back those
    lines (the last one only when it is not empty), or a single empty line
    for an empty text, followed by the 500 empty lines of room. A line
    ended by a bare LF must not end with a carriage return: that one is
    taken as part of the ending. *)
Theorem from_string_lines ls term w :
  (forall l, In l ls -> ~ In newline l) ->
  (term = [carriage_return] \/
   (term = [] /\ forall l, In l ls -> vec_last l <> Some carriage_return)) ->
  ~ In newline w ->
  let ls' := ls ++ (match w with [] => [] | _ => [w] end) in
  lines (from_string (concat (map (fun l => l ++ term ++ [newline]) ls) ++ w))
  = (match ls' with [] => [[]] | _ => ls' end) ++ repeat [] 500.
Proof.
  intros Hl Ht Hw ls'. unfold from_string, push_empty_lines. simpl.
  rewrite (str_lines_join ls term w Hl Ht Hw). reflexivity.
Qed.

Lemma from_string_lines_witness :
  lines (from_string (s_ "ab" ++ [carriage_return; newline] ++ s_ "c"
                      ++ [carriage_return; newline] ++ s_ "d"))
  = [s_ "ab"; s_ "c"; s_ "d"] ++ repeat [] 500.
Proof.
  refine (from_string_lines [s_ "ab"; s_ "c"] [carriage_return] (s_ "d") _ (or_introl eq_refl) _).
  - intros l [<-|[<-|[]]]; simpl; intros H; repeat destruct H as [H|H]; try discriminate; auto.
  - simpl. intros [H|[]]. discriminate.
Defined.
